(** * Prestige Timepieces: the outbound notification queue, the retry
      wrapper and the data-access helper

    The development embeds three pieces of the repository:

    - [ONQ]: [queueWhatsAppMessage] and [processMessageQueue] of
      services/whatsapp.ts (the rate-limited message queue);
    - [Retry]: [sendWhatsAppWithRetry] of services/whatsapp.ts;
    - [DAL]: class [DatabaseHelper] of database/init.ts, run against a small
      model of the SQLite statements the helper generates.

    Asynchronous functions are modelled by explicit state passing: a task
    transforms a world that holds the module-level variables and the trace of
    the observable events, and either completes or throws. *)

From Stdlib Require Import ZArith Lia String Ascii Bool Arith DecimalString.
From Stdlib Require Import List Permutation.
Import ListNotations.

Set Implicit Arguments.

(** ** Completions shared by the three components *)

(** A JavaScript call either returns a value or throws; an awaited promise
    either fulfils or rejects.  Errors are carried by their message. *)
Inductive Result (A : Type) : Type :=
| Ok (a : A)
| Throw (error : string).

Arguments Ok {A} a.
Arguments Throw {A} error.

(** * The outbound notification queue *)

Module ONQ.

(** A queued [messageFunction : () => Promise<void>].  The queue never looks
    inside a job; all it observes is whether awaiting the call fulfils or
    rejects.  [job_id] tells jobs apart in the trace. *)
Inductive Outcome : Type :=
| Resolves
| Rejects (error : string).

Record Job : Type := mkJob { job_id : nat; job_outcome : Outcome }.

(** Observable events, in the order they happen. *)
Inductive Event : Type :=
| EvPush (j : Job)                (* messageQueue.push(messageFunction)        *)
| EvRun (j : Job)                 (* await messageFunction()                   *)
| EvTimeout (ms : Z)              (* await new Promise(r => setTimeout(r, ms)) *)
| EvConsoleError (error : string) (* console.error("Queued message failed:", error) *).

(** The module-level state ([messageQueue], [isProcessingQueue]) together with
    the environment: [producers] lists, for each later suspension point of the
    running task, the jobs that other tasks pass to [queueWhatsAppMessage]
    while it is suspended there.  JavaScript is single threaded, so other
    tasks run only at the [await]s. *)
Record World : Type := mkWorld {
  messageQueue : list Job;
  isProcessingQueue : bool;
  producers : list (list Job);
  trace : list Event
}.

Definition MESSAGE_RATE_LIMIT : Z := 1000.

Definition Task (A : Type) : Type := World -> Result A * World.

Definition ret {A} (a : A) : Task A := fun w => (Ok a, w).

Definition bind {A B} (m : Task A) (k : A -> Task B) : Task B :=
  fun w => match m w with
           | (Ok a, w') => k a w'
           | (Throw e, w') => (Throw e, w')
           end.

Definition throw {A} (e : string) : Task A := fun w => (Throw e, w).

(** [try { body } catch (error) { handler(error) }] *)
Definition try_catch {A} (body : Task A) (handler : string -> Task A) : Task A :=
  fun w => match body w with
           | (Ok a, w') => (Ok a, w')
           | (Throw e, w') => handler e w'
           end.

Declare Scope task_scope.
Delimit Scope task_scope with task.
Notation "x <- m ;; k" := (bind m (fun x => k))
  (at level 61, m at next level, right associativity) : task_scope.
Notation "m ;; k" := (bind m (fun _ => k))
  (at level 61, right associativity) : task_scope.
Local Open Scope task_scope.

Definition emit (e : Event) : Task unit :=
  fun w => (Ok tt, mkWorld (messageQueue w) (isProcessingQueue w)
                           (producers w) (trace w ++ [e])).

Definition set_processing (b : bool) : Task unit :=
  fun w => (Ok tt, mkWorld (messageQueue w) b (producers w) (trace w)).

(** [messageQueue.push(messageFunction)] *)
Definition push (j : Job) : Task unit :=
  fun w => (Ok tt, mkWorld (messageQueue w ++ [j]) (isProcessingQueue w)
                           (producers w) (trace w ++ [EvPush j])).

(** [messageQueue.shift()]: the head, or [undefined] on an empty array. *)
Definition shift : Task (option Job) :=
  fun w => match messageQueue w with
           | [] => (Ok None, w)
           | j :: rest =>
               (Ok (Some j), mkWorld rest (isProcessingQueue w)
                                     (producers w) (trace w))
           end.

Fixpoint push_all (js : list Job) : Task unit :=
  match js with
  | [] => ret tt
  | j :: js' => push j ;; push_all js'
  end.

(** A suspension point of the drain loop.  The producers scheduled for it call
    [queueWhatsAppMessage]; the loop is running, so each call finds
    [isProcessingQueue] set and only pushes (lemma
    [queueWhatsAppMessage_while_processing] below). *)
Definition suspend : Task unit :=
  fun w => match producers w with
           | [] => (Ok tt, w)
           | now :: later =>
               push_all now (mkWorld (messageQueue w) (isProcessingQueue w)
                                     later (trace w))
           end.

(** [await messageFunction()] *)
Definition await_job (j : Job) : Task unit :=
  emit (EvRun j) ;;
  suspend ;;
  match job_outcome j with
  | Resolves => ret tt
  | Rejects e => throw e
  end.

(** [await new Promise(resolve => setTimeout(resolve, ms))] *)
Definition await_timeout (ms : Z) : Task unit :=
  emit (EvTimeout ms) ;; suspend.

Definition console_error (e : string) : Task unit := emit (EvConsoleError e).

(** The body of the [while] loop of [processMessageQueue]. *)
Definition loop_body : Task unit :=
  messageFunction <- shift ;;
  match messageFunction with
  | Some f =>
      try_catch
        (await_job f ;; await_timeout MESSAGE_RATE_LIMIT)
        (fun error => console_error error)
  | None => ret tt
  end.

(** [while (messageQueue.length > 0) { ... }], with fuel for the number of
    times the condition is tested.  [None] means the fuel ran out. *)
Fixpoint while_loop (fuel : nat) (w : World) : option (Result unit * World) :=
  match fuel with
  | O => None
  | S fuel' =>
      if (0 <? length (messageQueue w))%nat then
        match loop_body w with
        | (Ok _, w') => while_loop fuel' w'
        | (Throw e, w') => Some (Throw e, w')
        end
      else Some (Ok tt, w)
  end.

Definition processMessageQueue (fuel : nat) (w : World)
  : option (Result unit * World) :=
  match set_processing true w with
  | (Ok _, w1) =>
      match while_loop fuel w1 with
      | Some (Ok _, w2) => Some (set_processing false w2)
      | Some (Throw e, w2) => Some (Throw e, w2)
      | None => None
      end
  | (Throw e, w1) => Some (Throw e, w1)
  end.

(** [queueWhatsAppMessage]: the result is the state of the world when the
    promise it returns settles, and how it settles. *)
Definition queueWhatsAppMessage (fuel : nat) (messageFunction : Job) (w : World)
  : option (Result unit * World) :=
  match push messageFunction w with
  | (Ok _, w1) =>
      if negb (isProcessingQueue w1) then processMessageQueue fuel w1
      else Some (Ok tt, w1)
  | (Throw e, w1) => Some (Throw e, w1)
  end.

(** *** Reading a trace *)

Definition idle : World := mkWorld [] false [] [].

(** The jobs started, in order. *)
Fixpoint executed (tr : list Event) : list Job :=
  match tr with
  | [] => []
  | EvRun j :: tr' => j :: executed tr'
  | _ :: tr' => executed tr'
  end.

(** The jobs handed to the queue, in order. *)
Fixpoint enqueued (tr : list Event) : list Job :=
  match tr with
  | [] => []
  | EvPush j :: tr' => j :: enqueued tr'
  | _ :: tr' => enqueued tr'
  end.

(** What the drain loop itself did: the trace without the producers' pushes. *)
Fixpoint loop_events (tr : list Event) : list Event :=
  match tr with
  | [] => []
  | EvPush _ :: tr' => loop_events tr'
  | e :: tr' => e :: loop_events tr'
  end.

(** The events of one iteration on job [j], as the code produces them. *)
Definition iteration (j : Job) : list Event :=
  match job_outcome j with
  | Resolves => [EvRun j; EvTimeout MESSAGE_RATE_LIMIT]
  | Rejects e => [EvRun j; EvConsoleError e]
  end.

(** The batch of producers served at the next suspension point. *)
Definition next_batch (ps : list (list Job)) : list Job * list (list Job) :=
  match ps with
  | [] => ([], [])
  | now :: later => (now, later)
  end.

(** A caller that awaits each call before it makes the next one, the way the
    [for] loop of [sendBulkWhatsAppMessages] does. *)
Fixpoint queue_each (fuel : nat) (js : list Job) (w : World)
  : option (Result unit * World) :=
  match js with
  | [] => Some (Ok tt, w)
  | j :: js' =>
      match queueWhatsAppMessage fuel j w with
      | Some (Ok _, w') => queue_each fuel js' w'
      | other => other
      end
  end.

End ONQ.

(** * The retry wrapper *)

Module Retry.

Local Open Scope string_scope.
Local Open Scope Z_scope.

Record WhatsAppResponse : Type := mkResponse {
  messageId : string;
  status : string;
  timestamp : string;
  provider : string
}.

Inductive Event : Type :=
| EvLogAttempt (attempt maxRetries : Z) (to : string)
    (* console.log(`WhatsApp send attempt ${attempt}/${maxRetries} to ${to}`) *)
| EvSend (to message : string) (mediaUrl : option string)
    (* await sendWhatsAppMessage(to, message, mediaUrl) *)
| EvLogFailed (attempt : Z) (error : string)
    (* console.error(`WhatsApp send attempt ${attempt} failed:`, error) *)
| EvLogWaiting (waitTime : Z)
    (* console.log(`Waiting ${waitTime}ms before retry...`) *)
| EvTimeout (ms : Z)
    (* await new Promise(resolve => setTimeout(resolve, waitTime)) *).

(** [sends] counts the calls of the send primitive made so far. *)
Record World : Type := mkWorld { sends : nat; trace : list Event }.

Definition start : World := mkWorld 0 [].

Definition emit (e : Event) (w : World) : World :=
  mkWorld (sends w) (trace w ++ [e])%list.

(** How a [for] loop that contains a [return] ends. *)
Inductive LoopExit : Type :=
| Returned (r : WhatsAppResponse)
| Finished (lastError : option string).

(** The template literal [`${n}`] for an integer [n]. *)
Definition number_to_string (n : Z) : string :=
  NilZero.string_of_int (Z.to_int n).

(** [`${lastError?.message}`]: the text "undefined" when [lastError] is null. *)
Definition optional_message (lastError : option string) : string :=
  match lastError with
  | Some message => message
  | None => "undefined"
  end.

Definition failure_message (maxRetries : Z) (lastError : option string) : string :=
  "WhatsApp send failed after " ++ number_to_string maxRetries
    ++ " attempts. Last error: " ++ optional_message lastError.

Section WithProvider.

(** The send primitive is an external collaborator: [outcome n to message
    mediaUrl] is how its call number [n] (counted from 0) ends. *)
Variable outcome :
  nat -> string -> string -> option string -> Result WhatsAppResponse.

Definition sendWhatsAppMessage (to message : string) (mediaUrl : option string)
  (w : World) : Result WhatsAppResponse * World :=
  (outcome (sends w) to message mediaUrl,
   mkWorld (S (sends w)) (trace w ++ [EvSend to message mediaUrl])%list).

(** [for (let attempt = 1; attempt <= maxRetries; attempt++) { ... }] from the
    value [attempt] on, with fuel for the number of times the condition is
    tested.  The budget is an integer; [Math.pow(2, attempt) * 1000] is then
    an integer that a double holds exactly, so it is computed in [Z]. *)
Fixpoint for_attempts (fuel : nat) (to message : string) (maxRetries : Z)
  (mediaUrl : option string) (attempt : Z) (lastError : option string)
  (w : World) : option (LoopExit * World) :=
  match fuel with
  | O => None
  | S fuel' =>
      if attempt <=? maxRetries then
        let w := emit (EvLogAttempt attempt maxRetries to) w in
        match sendWhatsAppMessage to message mediaUrl w with
        | (Ok r, w) => Some (Returned r, w)
        | (Throw error, w) =>
            let lastError := Some error in
            let w := emit (EvLogFailed attempt error) w in
            let w :=
              if attempt <? maxRetries then
                let waitTime := 2 ^ attempt * 1000 in
                emit (EvTimeout waitTime) (emit (EvLogWaiting waitTime) w)
              else w in
            for_attempts fuel' to message maxRetries mediaUrl
                         (attempt + 1) lastError w
        end
      else Some (Finished lastError, w)
  end.

(** [sendWhatsAppWithRetry(to, message, maxRetries = 3, mediaUrl?)]; an
    omitted [maxRetries] is [None]. *)
Definition sendWhatsAppWithRetry (to message : string) (maxRetries : option Z)
  (mediaUrl : option string) (w : World)
  : option (Result WhatsAppResponse * World) :=
  let maxRetries := match maxRetries with Some n => n | None => 3 end in
  match for_attempts (S (Z.to_nat maxRetries)) to message maxRetries mediaUrl
                     1 None w with
  | Some (Returned r, w') => Some (Ok r, w')
  | Some (Finished lastError, w') =>
      Some (Throw (failure_message maxRetries lastError), w')
  | None => None
  end.

End WithProvider.

(** *** Reading a trace *)

Fixpoint send_count (tr : list Event) : nat :=
  match tr with
  | [] => O
  | EvSend _ _ _ :: tr' => S (send_count tr')
  | _ :: tr' => send_count tr'
  end%list.

Fixpoint waits (tr : list Event) : list Z :=
  match tr with
  | [] => []
  | EvTimeout ms :: tr' => ms :: waits tr'
  | _ :: tr' => waits tr'
  end%list.

(** The events of attempt [attempt] when its send fails with [error]. *)
Definition failed_attempt (to message : string) (maxRetries : Z)
  (mediaUrl : option string) (attempt : Z) (error : string) : list Event :=
  ([EvLogAttempt attempt maxRetries to; EvSend to message mediaUrl;
    EvLogFailed attempt error]
   ++ (if attempt <? maxRetries
       then [EvLogWaiting (2 ^ attempt * 1000); EvTimeout (2 ^ attempt * 1000)]
       else []))%list.

(** The events of [n] failed attempts in a row, the first being attempt
    [attempt] and call [call] of the primitive, failing with [err call]. *)
Fixpoint failed_attempts (to message : string) (maxRetries : Z)
  (mediaUrl : option string) (err : nat -> string) (n : nat)
  (attempt : Z) (call : nat) : list Event :=
  match n with
  | O => []
  | S n' =>
      (failed_attempt to message maxRetries mediaUrl attempt (err call)
       ++ failed_attempts to message maxRetries mediaUrl err n'
                          (attempt + 1) (S call))%list
  end.

End Retry.

(** * The data-access helper *)

Module DAL.

Local Open Scope string_scope.

(** A scalar bound to a placeholder or stored in a column (numbers are
    integers here). *)
Inductive Value : Type :=
| VNull
| VInt (n : Z)
| VText (s : string).

(** A row, and the [data : Record<string, any>] of an update: column names
    with their values, in key order. *)
Definition Row : Type := list (string * Value).

(** [Object.keys(data)] and [Object.values(data)] *)
Definition keys (data : Row) : list string := map fst data.
Definition values (data : Row) : list Value := map snd data.

(** The part of the sqlite3 [Database] class the helper uses:
    [db.prepare(query).all(params)], [.get(params)] and [.run(params)].
    [get] answers [undefined] ([None]) when the statement yields no row;
    [run] answers the number of rows changed and leaves a new database. *)
Class Database (DB : Type) : Type := {
  stmt_all : DB -> string -> list Value -> Result (list Row);
  stmt_get : DB -> string -> list Value -> Result (option Row);
  stmt_run : DB -> string -> list Value -> Result Z * DB
}.

Section DatabaseHelper.

Context {DB : Type} `{Database DB}.

(** [selectAll(table, where?, params?)].  An omitted argument is [None];
    [if (where)] is false for [undefined] and for the empty string. *)
Definition selectAll (db : DB) (table : string) (where_ : option string)
  (params : option (list Value)) : Result (list Row) :=
  let query := "SELECT * FROM " ++ table in
  let query :=
    match where_ with
    | Some (String c w) => query ++ " WHERE " ++ String c w
    | Some EmptyString | None => query
    end in
  stmt_all db query (match params with Some ps => ps | None => [] end).

(** [selectOne(table, where, params)] *)
Definition selectOne (db : DB) (table where_ : string) (params : list Value)
  : Result (option Row) :=
  let query := "SELECT * FROM " ++ table ++ " WHERE " ++ where_ ++ " LIMIT 1" in
  stmt_get db query params.

(** [update(table, data, where, whereParams)] *)
Definition update (db : DB) (table : string) (data : Row) (where_ : string)
  (whereParams : list Value) : Result bool * DB :=
  let keys := keys data in
  let values := values data in
  let setClause := String.concat ", " (map (fun key => key ++ " = ?") keys) in
  let query := "UPDATE " ++ table ++ " SET " ++ setClause
               ++ ", updated_at = CURRENT_TIMESTAMP WHERE " ++ where_ in
  match stmt_run db query (values ++ whereParams)%list with
  | (Ok changes, db') => (Ok (0 <? changes)%Z, db')
  | (Throw e, db') => (Throw e, db')
  end.

End DatabaseHelper.

(** ** A model of the store

    The store is SQLite, outside the repository.  The model covers the
    statements the helper writes: [SELECT * FROM t], with an optional
    [WHERE] fragment and an optional [LIMIT 1], and
    [UPDATE t SET c = ?, ..., c = CURRENT_TIMESTAMP WHERE] fragment.  The
    meaning of a [WHERE] fragment is a parameter. *)

Record Table : Type := mkTable { columns : list string; rows : list Row }.

Record Store : Type := mkStore {
  tables : list (string * Table);
  current_timestamp : string
}.

Fixpoint lookup {A} (k : string) (l : list (string * A)) : option A :=
  match l with
  | [] => None
  | (k', a) :: l' => if k' =? k then Some a else lookup k l'
  end%list.

(** Replace the table named [k]. *)
Fixpoint replace_table (k : string) (t : Table) (l : list (string * Table))
  : list (string * Table) :=
  match l with
  | [] => []
  | (k', t') :: l' =>
      if k' =? k then (k', t) :: l' else (k', t') :: replace_table k t l'
  end%list.

(** Give column [c] of a row the value [v]. *)
Definition set_column (c : string) (v : Value) (r : Row) : Row :=
  map (fun cv => if fst cv =? c then (fst cv, v) else cv) r.

Definition is_ident_char (c : ascii) : bool :=
  let n := N_of_ascii c in
  ((48 <=? n) && (n <=? 57) || (65 <=? n) && (n <=? 90)
   || (97 <=? n) && (n <=? 122) || (n =? 95))%N.

Fixpoint is_ident_chars (s : string) : bool :=
  match s with
  | EmptyString => true
  | String c s' => is_ident_char c && is_ident_chars s'
  end.

(** A name: letters, digits and underscores, at least one. *)
Definition is_ident (s : string) : bool :=
  match s with
  | EmptyString => false
  | String _ _ => is_ident_chars s
  end.

(** The longest prefix made of name characters, and the rest. *)
Fixpoint span_ident (s : string) : string * string :=
  match s with
  | EmptyString => (EmptyString, EmptyString)
  | String c s' =>
      if is_ident_char c
      then let (name, rest) := span_ident s' in (String c name, rest)
      else (EmptyString, s)
  end.

Fixpoint strip_prefix (p s : string) : option string :=
  match p, s with
  | EmptyString, _ => Some s
  | String a p', String b s' =>
      if Ascii.eqb a b then strip_prefix p' s' else None
  | String _ _, EmptyString => None
  end.

Fixpoint strip_suffix (suffix s : string) : option string :=
  if s =? suffix then Some EmptyString
  else match s with
       | EmptyString => None
       | String c s' =>
           match strip_suffix suffix s' with
           | Some s'' => Some (String c s'')
           | None => None
           end
       end.

(** What follows a name: nothing, or a character that cannot be part of it. *)
Definition ends_name (rest : string) : Prop :=
  match rest with
  | EmptyString => True
  | String c _ => is_ident_char c = false
  end.

(** The text [update] puts between [SET] and the where-clause. *)
Definition set_clause (ks : list string) : string :=
  String.concat ", " (map (fun key => key ++ " = ?") ks).

Definition stamp : string := ", updated_at = CURRENT_TIMESTAMP WHERE ".

Inductive Expr : Type :=
| EParam               (* ? *)
| ECurrentTimestamp    (* CURRENT_TIMESTAMP *).

Inductive Stmt : Type :=
| SSelect (table : string) (where_ : option string) (limit1 : bool)
| SUpdate (table : string) (assignments : list (string * Expr)) (where_ : string).

Definition parse_expr (s : string) : option (Expr * string) :=
  match strip_prefix "?" s with
  | Some rest => Some (EParam, rest)
  | None =>
      match strip_prefix "CURRENT_TIMESTAMP" s with
      | Some rest => Some (ECurrentTimestamp, rest)
      | None => None
      end
  end.

(** [c = e, c = e, ... WHERE fragment] *)
Fixpoint parse_assignments (fuel : nat) (s : string)
  : option (list (string * Expr) * string) :=
  match fuel with
  | O => None
  | S fuel' =>
      let (column, rest) := span_ident s in
      if is_ident column then
        match strip_prefix " = " rest with
        | Some rest =>
            match parse_expr rest with
            | Some (e, rest) =>
                match strip_prefix ", " rest with
                | Some rest =>
                    match parse_assignments fuel' rest with
                    | Some (assignments, where_) =>
                        Some ((column, e) :: assignments, where_)%list
                    | None => None
                    end
                | None =>
                    match strip_prefix " WHERE " rest with
                    | Some where_ => Some ([(column, e)], where_)%list
                    | None => None
                    end
                end
            | None => None
            end
        | None => None
        end
      else None
  end.

Definition parse_select (s : string) : option Stmt :=
  let (table, rest) := span_ident s in
  if is_ident table then
    match rest with
    | EmptyString => Some (SSelect table None false)
    | String _ _ =>
        match strip_prefix " WHERE " rest with
        | Some fragment =>
            match strip_suffix " LIMIT 1" fragment with
            | Some where_ => Some (SSelect table (Some where_) true)
            | None => Some (SSelect table (Some fragment) false)
            end
        | None => None
        end
    end
  else None.

Definition parse_update (s : string) : option Stmt :=
  let (table, rest) := span_ident s in
  if is_ident table then
    match strip_prefix " SET " rest with
    | Some rest =>
        match parse_assignments (String.length rest) rest with
        | Some (assignments, where_) => Some (SUpdate table assignments where_)
        | None => None
        end
    | None => None
    end
  else None.

Definition parse (query : string) : option Stmt :=
  match strip_prefix "SELECT * FROM " query with
  | Some rest => parse_select rest
  | None =>
      match strip_prefix "UPDATE " query with
      | Some rest => parse_update rest
      | None => None
      end
  end.

(** The first column assigned that the table does not have. *)
Fixpoint unknown_column (cols : list string) (assignments : list (string * Expr))
  : option string :=
  match assignments with
  | [] => None
  | (c, _) :: rest =>
      if existsb (String.eqb c) cols then unknown_column cols rest else Some c
  end%list.

(** Bind the leading parameters to the [?] of the assignments; what is left
    belongs to the [WHERE] fragment. *)
Fixpoint bind_assignments (assignments : list (string * Expr)) (now : Value)
  (params : list Value) : option (list (string * Value) * list Value) :=
  match assignments with
  | [] => Some ([], params)
  | (c, e) :: rest =>
      match e, params with
      | ECurrentTimestamp, _ =>
          match bind_assignments rest now params with
          | Some (bound, remaining) => Some ((c, now) :: bound, remaining)
          | None => None
          end
      | EParam, v :: params' =>
          match bind_assignments rest now params' with
          | Some (bound, remaining) => Some ((c, v) :: bound, remaining)
          | None => None
          end
      | EParam, [] => None
      end
  end%list.

(** Assign left to right: of two assignments to one column the right one
    stays. *)
Definition assign (bound : list (string * Value)) (r : Row) : Row :=
  fold_left (fun r cv => set_column (fst cv) (snd cv) r) bound r.

Section Store.

(** [predicate fragment params]: the row test a [WHERE] fragment stands for
    once its placeholders are bound, or [None] when the store rejects it. *)
Variable predicate : string -> list Value -> option (Row -> bool).

Definition run_select (st : Store) (table : string) (where_ : option string)
  (limit1 : bool) (params : list Value) : Result (list Row) :=
  match lookup table (tables st) with
  | None => Throw ("no such table: " ++ table)
  | Some t =>
      match where_ with
      | None =>
          match params with
          | [] => Ok (if limit1 then firstn 1 (rows t) else rows t)
          | (_ :: _)%list => Throw "too many parameters"
          end
      | Some fragment =>
          match predicate fragment params with
          | Some p =>
              let matching := filter p (rows t) in
              Ok (if limit1 then firstn 1 matching else matching)
          | None => Throw "invalid WHERE clause"
          end
      end
  end.

Definition run_update (st : Store) (table : string)
  (assignments : list (string * Expr)) (where_ : string) (params : list Value)
  : Result Z * Store :=
  match lookup table (tables st) with
  | None => (Throw ("no such table: " ++ table), st)
  | Some t =>
      match unknown_column (columns t) assignments with
      | Some c => (Throw ("no such column: " ++ c), st)
      | None =>
          match bind_assignments assignments (VText (current_timestamp st)) params with
          | None => (Throw "too few parameters", st)
          | Some (bound, whereParams) =>
              match predicate where_ whereParams with
              | None => (Throw "invalid WHERE clause", st)
              | Some p =>
                  let rows' := map (fun r => if p r then assign bound r else r)
                                   (rows t) in
                  (Ok (Z.of_nat (length (filter p (rows t)))),
                   mkStore (replace_table table (mkTable (columns t) rows')
                                          (tables st))
                           (current_timestamp st))
              end
          end
      end
  end.

Definition sqlite_all (st : Store) (query : string) (params : list Value)
  : Result (list Row) :=
  match parse query with
  | Some (SSelect table where_ limit1) => run_select st table where_ limit1 params
  | Some (SUpdate _ _ _) => Throw "not a query"
  | None => Throw "syntax error"
  end.

Definition sqlite_get (st : Store) (query : string) (params : list Value)
  : Result (option Row) :=
  match sqlite_all st query params with
  | Ok rs => Ok (hd_error rs)
  | Throw e => Throw e
  end.

Definition sqlite_run (st : Store) (query : string) (params : list Value)
  : Result Z * Store :=
  match parse query with
  | Some (SUpdate table assignments where_) =>
      run_update st table assignments where_ params
  | Some (SSelect table where_ limit1) =>
      match run_select st table where_ limit1 params with
      | Ok _ => (Ok 0%Z, st)
      | Throw e => (Throw e, st)
      end
  | None => (Throw "syntax error", st)
  end.

#[local] Instance Sqlite : Database Store := {
  stmt_all := sqlite_all;
  stmt_get := sqlite_get;
  stmt_run := sqlite_run
}.

End Store.

(** A [WHERE] semantics for the fragments [c = ?]: the rows whose column [c]
    equals the one parameter.  In SQL a null equals nothing. *)
Definition value_eqb (a b : Value) : bool :=
  match a, b with
  | VInt x, VInt y => (x =? y)%Z
  | VText x, VText y => (x =? y)
  | _, _ => false
  end.

Definition equality_predicate (fragment : string) (params : list Value)
  : option (Row -> bool) :=
  let (column, rest) := span_ident fragment in
  if is_ident column && (rest =? " = ?") then
    match params with
    | [v] => Some (fun r => match lookup column r with
                            | Some x => value_eqb x v
                            | None => false
                            end)
    | _ => None
    end%list
  else None.

(** ** A store with the schema of [initializeDatabase]

    The columns are those of the [CREATE TABLE] statements; the rows are a
    sample. *)

Definition watches_columns : list string :=
  ["id"; "brand"; "model"; "reference"; "year"; "condition"; "price";
   "market_price"; "description"; "image"; "image_url"; "accessories";
   "watch_charts_uuid"; "status"; "created_at"; "updated_at"].

Definition inquiries_columns : list string :=
  ["id"; "watch_id"; "type"; "customer_name"; "customer_email";
   "customer_phone"; "message"; "status"; "created_at"].

Definition sell_submissions_columns : list string :=
  ["id"; "brand"; "model"; "reference"; "year"; "condition"; "accessories";
   "description"; "customer_name"; "customer_email"; "customer_phone";
   "status"; "estimated_value"; "notes"; "created_at"].

Definition admin_users_columns : list string :=
  ["id"; "username"; "password_hash"; "email"; "role"; "last_login";
   "created_at"].

Definition api_keys_columns : list string :=
  ["id"; "service"; "key_name"; "key_value"; "is_active"; "created_at"].

Definition settings_columns : list string :=
  ["id"; "key"; "value"; "description"; "updated_at"].

Definition watch (id : Z) (brand model reference : string) (year price : Z)
  : Row :=
  [("id", VInt id); ("brand", VText brand); ("model", VText model);
   ("reference", VText reference); ("year", VInt year);
   ("condition", VText "Excellent"); ("price", VInt price);
   ("market_price", VNull); ("description", VNull); ("image", VNull);
   ("image_url", VNull); ("accessories", VText "Box, papers");
   ("watch_charts_uuid", VNull); ("status", VText "available");
   ("created_at", VText "2024-01-01 00:00:00");
   ("updated_at", VText "2024-01-01 00:00:00")].

Definition inquiry (id watch_id : Z) (name email : string) : Row :=
  [("id", VInt id); ("watch_id", VInt watch_id); ("type", VText "inquiry");
   ("customer_name", VText name); ("customer_email", VText email);
   ("customer_phone", VNull); ("message", VNull); ("status", VText "pending");
   ("created_at", VText "2024-01-01 00:00:00")].

Definition sample_store : Store :=
  mkStore
    [("watches",
      mkTable watches_columns
        [watch 1 "Rolex" "Submariner Date" "116610LN" 2019 12500;
         watch 2 "Omega" "Speedmaster Professional" "311.30.42.30.01.005"
               2020 4200]);
     ("inquiries",
      mkTable inquiries_columns [inquiry 1 2 "Ann" "ann@example.com"]);
     ("sell_submissions", mkTable sell_submissions_columns []);
     ("admin_users", mkTable admin_users_columns []);
     ("api_keys", mkTable api_keys_columns []);
     ("settings", mkTable settings_columns [])]
    "2024-06-01 12:00:00".

End DAL.

(** * Phone numbers (services/whatsapp.ts) *)

Module Phone.

Local Open Scope string_scope.

(** [\d]: one of the characters 0 to 9. *)
Definition is_digit (c : ascii) : bool :=
  let n := N_of_ascii c in ((48 <=? n) && (n <=? 57))%N.

Fixpoint all_digits (s : string) : bool :=
  match s with
  | EmptyString => true
  | String c s' => is_digit c && all_digits s'
  end.

(** [phone.replace(/\D/g, "")] *)
Fixpoint remove_non_digits (phone : string) : string :=
  match phone with
  | EmptyString => EmptyString
  | String c s' =>
      if is_digit c then String c (remove_non_digits s')
      else remove_non_digits s'
  end.

(** [s.startsWith(p)] *)
Definition startsWith (s p : string) : bool := String.prefix p s.

Definition normalizePhoneNumber (phone : string) : string :=
  let normalized := remove_non_digits phone in
  let normalized :=
    if negb (startsWith normalized "1") && (String.length normalized =? 10)%nat
    then "1" ++ normalized else normalized in
  let normalized :=
    if negb (startsWith normalized "+") then "+" ++ normalized else normalized in
  normalized.

(** [/^\+1\d{10}$/.test(s)] *)
Definition test_plus_1_and_10_digits (s : string) : bool :=
  match s with
  | String "+" (String "1" rest) =>
      (String.length rest =? 10)%nat && all_digits rest
  | _ => false
  end.

Definition validatePhoneNumber (phone : string) : bool :=
  let normalized := normalizePhoneNumber phone in
  test_plus_1_and_10_digits normalized.

End Phone.

(** * Measures on traces *)

Module Measures.

Definition sum (l : list Z) : Z := fold_right Z.add 0%Z l.



(** The jobs of a list that fulfil. *)
Definition fulfils (j : ONQ.Job) : bool :=
  match ONQ.job_outcome j with
  | ONQ.Resolves => true
  | ONQ.Rejects _ => false
  end.

(** The waits of the drain loop in a trace. *)
Fixpoint delays (tr : list ONQ.Event) : list Z :=
  match tr with
  | [] => []
  | ONQ.EvTimeout ms :: tr' => ms :: delays tr'
  | _ :: tr' => delays tr'
  end.

End Measures.

(** * Bulk messaging (services/whatsapp.ts) *)

Module Bulk.

Import ONQ.
Local Open Scope string_scope.

Record Recipient : Type := mkRecipient {
  phone : string;
  name : string;
  customMessage : option string
}.

(** An element of the [results] array. *)
Record Entry : Type := mkEntry {
  entry_phone : string;
  success : bool;
  messageId : option string;
  error : option string
}.

Section WithSend.

(** [text.replace(pattern, replacement)] with a string pattern, a built-in. *)
Variable replace : string -> string -> string -> string.

(** [send i phone message]: how the call [sendWhatsAppMessage(phone, message)]
    made by the job of recipient number [i] ends. *)
Variable send : nat -> string -> string -> Result Retry.WhatsAppResponse.

(** [recipient.customMessage || defaultMessage.replace("{name}", recipient.name)] *)
Definition message_of (defaultMessage : string) (recipient : Recipient) : string :=
  match customMessage recipient with
  | Some (String c m) => String c m
  | Some EmptyString | None => replace defaultMessage "{name}" (name recipient)
  end.

(** The closure handed to the queue for recipient number [i]: it awaits the
    send and, when the send fulfils, pushes a success entry to [results].
    For the queue it is a job that fulfils or rejects as the send does;
    [job_id] is the number of the recipient. *)
Definition job_of (defaultMessage : string) (i : nat) (recipient : Recipient)
  : Job :=
  mkJob i
    (match send i (phone recipient) (message_of defaultMessage recipient) with
     | Ok _ => Resolves
     | Throw e => Rejects e
     end).

(** What running the job of recipient number [i] pushes to [results]. *)
Definition pushed_by (defaultMessage : string) (i : nat) (recipient : Recipient)
  : list Entry :=
  match send i (phone recipient) (message_of defaultMessage recipient) with
  | Ok response =>
      [mkEntry (phone recipient) true (Some (Retry.messageId response)) None]
  | Throw _ => []
  end.

(** What the jobs started in a stretch of trace push to [results]. *)
Definition pushed_during (defaultMessage : string) (recipients : list Recipient)
  (tr : list Event) : list Entry :=
  flat_map (fun j => match nth_error recipients (job_id j) with
                     | Some recipient => pushed_by defaultMessage (job_id j) recipient
                     | None => []
                     end)
           (executed tr).

(** The [for] loop from recipient number [i] on.  [results] is the array as
    it stands; the jobs run during an [await] add to it before the loop goes
    on. *)
Fixpoint for_recipients (fuel : nat) (all : list Recipient)
  (defaultMessage : string) (i : nat) (todo : list Recipient)
  (results : list Entry) (w : World) : option (list Entry * World) :=
  match todo with
  | [] => Some (results, w)
  | recipient :: todo' =>
      match queueWhatsAppMessage fuel (job_of defaultMessage i recipient) w with
      | None => None
      | Some (outcome, w') =>
          let during :=
            pushed_during defaultMessage all
                          (skipn (length (trace w)) (trace w')) in
          let results :=
            match outcome with
            | Ok _ => (results ++ during)%list
            | Throw e =>
                (results ++ during
                 ++ [mkEntry (phone recipient) false None (Some e)])%list
            end in
          for_recipients fuel all defaultMessage (S i) todo' results w'
      end
  end.

(** [sendBulkWhatsAppMessages(recipients, defaultMessage)]: the array it
    returns, as it stands when the call returns. *)
Definition sendBulkWhatsAppMessages (fuel : nat) (recipients : list Recipient)
  (defaultMessage : string) (w : World) : option (list Entry * World) :=
  for_recipients fuel recipients defaultMessage 0 recipients [] w.

(** The jobs of the recipients from number [i] on. *)
Fixpoint jobs_of (defaultMessage : string) (i : nat) (todo : list Recipient)
  : list Job :=
  match todo with
  | [] => []
  | recipient :: todo' =>
      job_of defaultMessage i recipient :: jobs_of defaultMessage (S i) todo'
  end.

(** The success entries of the recipients from number [i] on. *)
Fixpoint successes_of (defaultMessage : string) (i : nat) (todo : list Recipient)
  : list Entry :=
  match todo with
  | [] => []
  | recipient :: todo' =>
      (pushed_by defaultMessage i recipient
       ++ successes_of defaultMessage (S i) todo')%list
  end.

End WithSend.

End Bulk.

(** * Configuration and webhook verification (services/whatsapp.ts) *)

Module Config.

Local Open Scope string_scope.

Record Validation : Type := mkValidation { valid : bool; issues : list string }.

(** [!s] for a string: true for the empty string only. *)
Definition is_empty (s : string) : bool :=
  match s with
  | EmptyString => true
  | String _ _ => false
  end.

Section WithEnv.

(** [Deno.env.get]: the value of a variable, or [undefined]. *)
Variable env : string -> option string.

(** [Deno.env.get(key) || fallback] *)
Definition env_or (key fallback : string) : string :=
  match env key with
  | Some (String c s) => String c s
  | Some EmptyString | None => fallback
  end.

Definition WHATSAPP_PROVIDER : string := env_or "WHATSAPP_PROVIDER" "twilio".
Definition WHATSAPP_BUSINESS_NUMBER : string :=
  env_or "WHATSAPP_BUSINESS_NUMBER" "+1234567890".
Definition TWILIO_ACCOUNT_SID : string := env_or "TWILIO_ACCOUNT_SID" "".
Definition TWILIO_AUTH_TOKEN : string := env_or "TWILIO_AUTH_TOKEN" "".
Definition TWILIO_WHATSAPP_NUMBER : string :=
  env_or "TWILIO_WHATSAPP_NUMBER" "whatsapp:+14155238886".
Definition META_ACCESS_TOKEN : string := env_or "META_ACCESS_TOKEN" "".
Definition META_PHONE_NUMBER_ID : string := env_or "META_PHONE_NUMBER_ID" "".

(** [if (!value) issues.push(issue)] *)
Definition check (value issue : string) (issues : list string) : list string :=
  if is_empty value then (issues ++ [issue])%list else issues.

Definition validateWhatsAppConfig : Validation :=
  let issues := [] in
  let issues :=
    check WHATSAPP_BUSINESS_NUMBER "WHATSAPP_BUSINESS_NUMBER not configured" issues in
  let issues :=
    if WHATSAPP_PROVIDER =? "twilio" then
      let issues := check TWILIO_ACCOUNT_SID "TWILIO_ACCOUNT_SID not configured" issues in
      let issues := check TWILIO_AUTH_TOKEN "TWILIO_AUTH_TOKEN not configured" issues in
      check TWILIO_WHATSAPP_NUMBER "TWILIO_WHATSAPP_NUMBER not configured" issues
    else if WHATSAPP_PROVIDER =? "meta" then
      let issues := check META_ACCESS_TOKEN "META_ACCESS_TOKEN not configured" issues in
      check META_PHONE_NUMBER_ID "META_PHONE_NUMBER_ID not configured" issues
    else issues in
  mkValidation (length issues =? 0)%nat issues.

Inductive Console : Type :=
| ConsoleLog (text : string)
| ConsoleWarn (text : string).

(** [verifyWhatsAppWebhook(mode, token, challenge)]: the value returned
    ([null] is [None]) and the line written to the console. *)
Definition verifyWhatsAppWebhook (mode token challenge : string)
  : option string * Console :=
  let VERIFY_TOKEN :=
    env_or "WHATSAPP_VERIFY_TOKEN" "prestige_timepieces_verify_token" in
  if (mode =? "subscribe") && (token =? VERIFY_TOKEN) then
    (Some challenge, ConsoleLog "WhatsApp webhook verified successfully")
  else
    (None, ConsoleWarn "WhatsApp webhook verification failed").

End WithEnv.

End Config.

(** * Authentication middleware (middleware/auth.ts) *)

Module Auth.

Import DAL.
Local Open Scope string_scope.

(** The body of a response the middleware writes. *)
Record Body : Type := mkBody {
  success : bool;
  error : string;
  details : option string
}.

(** [ctx.state.user]; a field the row lacks is [undefined] ([None]). *)
Record UserInfo : Type := mkUserInfo {
  user_id : option Value;
  username : option Value;
  email : option Value;
  role : option Value
}.

(** The claims of a token the middleware reads. *)
Record Payload : Type := mkPayload { sub : Value; exp : option Z }.

(** What the middleware leaves in [ctx]: the status and body it has set (if
    any), [ctx.state.user], [ctx.state.tokenPayload], and how many times it
    has called [next]. *)
Record Ctx : Type := mkCtx {
  status : option Z;
  body : option Body;
  user : option UserInfo;
  tokenPayload : option Payload;
  next_calls : nat
}.

Definition user_of (row : Row) : UserInfo :=
  mkUserInfo (lookup "id" row) (lookup "username" row) (lookup "email" row)
             (lookup "role" row).

(** [message || fallback] *)
Definition message_or (message fallback : string) : string :=
  match message with
  | EmptyString => fallback
  | String _ _ => message
  end.

(** [exp && exp < now] *)
Definition expired (exp : option Z) (now : Z) : bool :=
  match exp with
  | Some e => negb (e =? 0)%Z && (e <? now)%Z
  | None => false
  end.

Definition respond (code : Z) (message : string) (details : option string)
  (user : option UserInfo) (payload : option Payload) (calls : nat) : Ctx :=
  mkCtx (Some code) (Some (mkBody false message details)) user payload calls.

Section Middleware.

Context {DB : Type} `{Database DB}.

(** [verify(token, JWT_SECRET)] of the JWT library. *)
Variable verify : string -> Result Payload.

(** [Math.floor(Date.now() / 1000)] *)
Variable now : Z.

(** How [await next()] ends, given [ctx.state.user]. *)
Variable next : UserInfo -> Result unit.

(** The inner [catch (jwtError)]. *)
Definition invalid_token (message : string) (user : option UserInfo)
  (payload : option Payload) (calls : nat) : Ctx :=
  respond 401 "Invalid token. Please login again."
          (Some (message_or message "JWT verification failed")) user payload calls.

(** The outer [catch (error)]. *)
Definition authentication_error (message : string) (user : option UserInfo)
  (calls : nat) : Ctx :=
  respond 500 "Authentication error"
          (Some (message_or message "Unknown error")) user None calls.

Definition authMiddleware (db : DB) (authHeader : option string) : Ctx :=
  match authHeader with
  | None | Some EmptyString =>
      respond 401 "Authentication required. Please provide a valid Bearer token."
              None None None 0
  | Some (String c h) =>
      let authHeader := String c h in
      if negb (String.prefix "Bearer " authHeader) then
        respond 401 "Authentication required. Please provide a valid Bearer token."
                None None None 0
      else
        let token := substring 7 (String.length authHeader - 7) authHeader in
        if token =? "admin-token" then
          match selectOne db "admin_users" "username = ?" [VText "admin"] with
          | Throw e => authentication_error e None 0
          | Ok None => respond 401 "Admin user not found." None None None 0
          | Ok (Some row) =>
              let user := user_of row in
              match next user with
              | Ok _ => mkCtx None None (Some user) None 1
              | Throw e => authentication_error e (Some user) 1
              end
          end
        else
          match verify token with
          | Throw e => invalid_token e None None 0
          | Ok payload =>
              if expired (exp payload) now then
                respond 401 "Token has expired. Please login again."
                        None None None 0
              else
                match selectOne db "admin_users" "id = ?" [sub payload] with
                | Throw e => invalid_token e None None 0
                | Ok None =>
                    respond 401 "User not found. Please login again."
                            None None None 0
                | Ok (Some row) =>
                    let user := user_of row in
                    match next user with
                    | Ok _ => mkCtx None None (Some user) (Some payload) 1
                    | Throw e => invalid_token e (Some user) (Some payload) 1
                    end
                end
          end
  end.

End Middleware.

End Auth.

(** * The login route (routes/auth.ts) *)

Module Login.

Import DAL Auth.
Local Open Scope string_scope.

(** The fields of the request body the handler reads; a missing field is
    [None]. *)
Record Credentials : Type := mkCredentials {
  body_username : option string;
  body_password : option string
}.

Inductive Response : Type :=
| Failure (status : Z) (error : string) (details : option string)
| Success (token : string) (user : UserInfo) (last_login : option Value).

(** [!field]: missing or empty. *)
Definition missing (field : option string) : bool :=
  match field with
  | Some (String _ _) => false
  | Some EmptyString | None => true
  end.

(** A field of a row as a bound parameter: [undefined] binds as null. *)
Definition param (v : option Value) : Value :=
  match v with
  | Some x => x
  | None => VNull
  end.

Section Handler.

Context {DB : Type} `{Database DB}.

(** [btoa], which throws on characters outside Latin-1. *)
Variable btoa : string -> Result string.

(** [new Date().toISOString()] and [Math.floor(Date.now() / 1000)] *)
Variable now_iso : string.
Variable now : Z.

(** [create({ alg, typ }, payload, JWT_SECRET)] of the JWT library, on the
    claims [sub], [username], [email], [role] (the user), [iat] and [exp]. *)
Variable create : UserInfo -> Z -> Z -> Result string.

(** The handler of [POST /api/auth/login]; [body] is how parsing the request
    body ended.  Every throw inside the handler lands in its [catch]. *)
Definition login (db : DB) (body : Result Credentials) : Response * DB :=
  match body with
  | Throw e => (Failure 500 "Login failed" (Some e), db)
  | Ok body =>
      if missing (body_username body) || missing (body_password body) then
        (Failure 400 "Username and password are required" None, db)
      else
        let username := match body_username body with Some u => u | None => "" end in
        let password := match body_password body with Some p => p | None => "" end in
        match selectOne db "admin_users" "username = ?" [VText username] with
        | Throw e => (Failure 500 "Login failed" (Some e), db)
        | Ok None => (Failure 401 "Invalid credentials" None, db)
        | Ok (Some row) =>
            match btoa password with
            | Throw e => (Failure 500 "Login failed" (Some e), db)
            | Ok expectedHash =>
                let same_hash :=
                  match lookup "password_hash" row with
                  | Some (VText h) => h =? expectedHash
                  | _ => false
                  end in
                if negb same_hash then
                  (Failure 401 "Invalid credentials" None, db)
                else
                  match update db "admin_users" [("last_login", VText now_iso)]
                               "id = ?" [param (lookup "id" row)] with
                  | (Throw e, db') => (Failure 500 "Login failed" (Some e), db')
                  | (Ok _, db') =>
                      match create (user_of row) now (now + 24 * 60 * 60)%Z with
                      | Throw e => (Failure 500 "Login failed" (Some e), db')
                      | Ok token =>
                          (Success token (user_of row) (lookup "last_login" row),
                           db')
                      end
                  end
            end
        end
  end.

End Handler.

(** A store with the [admin_users] table of [initializeDatabase] and the
    default administrator it inserts (password "admin123", stored as its
    base64 text). *)
Definition admin_row : Row :=
  [("id", VInt 1); ("username", VText "admin");
   ("password_hash", VText "YWRtaW4xMjM=");
   ("email", VText "admin@prestigetimepieces.com"); ("role", VText "admin");
   ("last_login", VNull); ("created_at", VText "2024-01-01 00:00:00")].

Definition admin_store : Store :=
  mkStore [("admin_users", mkTable admin_users_columns [admin_row])]
          "2024-06-01 12:00:00".

End Login.

(** * Properties of the outbound notification queue *)

Module ONQProps.
Import ONQ.
Local Open Scope task_scope.

Lemma executed_app tr1 tr2 : executed (tr1 ++ tr2) = executed tr1 ++ executed tr2.
Proof.
  induction tr1 as [|e tr1 IH]; simpl; [reflexivity|].
  destruct e; simpl; rewrite IH; reflexivity.
Qed.

Lemma enqueued_app tr1 tr2 : enqueued (tr1 ++ tr2) = enqueued tr1 ++ enqueued tr2.
Proof.
  induction tr1 as [|e tr1 IH]; simpl; [reflexivity|].
  destruct e; simpl; rewrite IH; reflexivity.
Qed.

Lemma loop_events_app tr1 tr2 :
  loop_events (tr1 ++ tr2) = loop_events tr1 ++ loop_events tr2.
Proof.
  induction tr1 as [|e tr1 IH]; simpl; [reflexivity|].
  destruct e; simpl; rewrite IH; reflexivity.
Qed.

Lemma executed_loop_events tr : executed (loop_events tr) = executed tr.
Proof.
  induction tr as [|e tr IH]; simpl; [reflexivity|].
  destruct e; simpl; rewrite ?IH; reflexivity.
Qed.

Lemma enqueued_pushes js : enqueued (map EvPush js) = js.
Proof. induction js; simpl; congruence. Qed.

Lemma loop_events_pushes js : loop_events (map EvPush js) = [].
Proof. induction js; simpl; auto. Qed.

Lemma executed_iterations js : executed (flat_map iteration js) = js.
Proof.
  induction js as [|j js IH]; simpl; [reflexivity|].
  rewrite executed_app, IH. unfold iteration.
  destruct (job_outcome j); reflexivity.
Qed.

Lemma push_all_spec js w :
  push_all js w =
  (Ok tt, mkWorld (messageQueue w ++ js) (isProcessingQueue w)
                  (producers w) (trace w ++ map EvPush js)).
Proof.
  revert w. induction js as [|j js IH]; intros w; simpl.
  - unfold ret. rewrite !app_nil_r. destruct w; reflexivity.
  - unfold bind, push. rewrite IH. simpl. rewrite <- ?app_assoc. reflexivity.
Qed.

Lemma suspend_spec w :
  suspend w =
  (Ok tt, mkWorld (messageQueue w ++ fst (next_batch (producers w)))
                  (isProcessingQueue w)
                  (snd (next_batch (producers w)))
                  (trace w ++ map EvPush (fst (next_batch (producers w))))).
Proof.
  unfold suspend. destruct w as [q b ps tr]; simpl.
  destruct ps as [|now later]; simpl.
  - rewrite !app_nil_r. reflexivity.
  - rewrite push_all_spec. reflexivity.
Qed.

(** One iteration: the head job is run, the loop never throws, and the queue
    afterwards is the tail followed by the jobs pushed meanwhile. *)
Ltac world_simpl :=
  cbn [messageQueue isProcessingQueue producers trace next_batch fst snd
       map concat app].

Lemma loop_body_spec j rest flag ps tr0 :
  exists consumed ps' tr,
    loop_body (mkWorld (j :: rest) flag ps tr0) =
      (Ok tt, mkWorld (rest ++ concat consumed) flag ps' (tr0 ++ tr)) /\
    ps = consumed ++ ps' /\
    loop_events tr = iteration j /\
    enqueued tr = concat consumed /\
    (length (concat consumed) + length (concat ps') = length (concat ps))%nat.
Proof.
  unfold loop_body, bind, shift, try_catch, await_job, await_timeout,
    console_error, bind, emit, iteration, ret, throw; world_simpl.
  rewrite suspend_spec; world_simpl.
  destruct ps as [|b1 ps1]; world_simpl.
  - destruct (job_outcome j) as [|e]; world_simpl.
    + rewrite suspend_spec; world_simpl.
      exists [], [], [EvRun j; EvTimeout MESSAGE_RATE_LIMIT]; world_simpl.
      rewrite ?app_nil_r, <- ?app_assoc. simpl. auto.
    + exists [], [], [EvRun j; EvConsoleError e]; world_simpl.
      rewrite ?app_nil_r, <- ?app_assoc. simpl. auto.
  - destruct (job_outcome j) as [|e]; world_simpl.
    + rewrite suspend_spec; world_simpl.
      destruct ps1 as [|b2 ps2]; world_simpl.
      * exists [b1], [], (EvRun j :: map EvPush b1 ++ [EvTimeout MESSAGE_RATE_LIMIT]).
        world_simpl. rewrite ?app_nil_r, <- ?app_assoc.
        cbn [loop_events enqueued app].
        rewrite loop_events_app, loop_events_pushes, enqueued_app, enqueued_pushes.
        simpl. rewrite app_nil_r. repeat split; auto.
      * exists [b1; b2], ps2,
          (EvRun j :: map EvPush b1 ++ EvTimeout MESSAGE_RATE_LIMIT :: map EvPush b2).
        world_simpl. rewrite ?app_nil_r, <- ?app_assoc.
        cbn [loop_events enqueued app]. rewrite <- ?app_assoc.
        rewrite loop_events_app, loop_events_pushes, enqueued_app, enqueued_pushes.
        cbn [loop_events enqueued app].
        rewrite loop_events_pushes, enqueued_pushes.
        repeat split; auto. rewrite !length_app. lia.
    + exists [b1], ps1, (EvRun j :: map EvPush b1 ++ [EvConsoleError e]).
      world_simpl. rewrite ?app_nil_r, <- ?app_assoc.
      cbn [loop_events enqueued app].
      rewrite loop_events_app, loop_events_pushes, enqueued_app, enqueued_pushes.
      simpl. rewrite app_nil_r. repeat split; auto. rewrite !length_app. lia.
Qed.

(** The drain loop empties the queue: with enough fuel it ends normally, having
    run the jobs that were pending and those pushed meanwhile, in that order,
    each with the events of [iteration]. *)
Lemma while_loop_spec fuel :
  forall q flag ps tr0,
    (length q + length (concat ps) < fuel)%nat ->
    exists consumed ps' tr,
      while_loop fuel (mkWorld q flag ps tr0) =
        Some (Ok tt, mkWorld [] flag ps' (tr0 ++ tr)) /\
      ps = consumed ++ ps' /\
      loop_events tr = flat_map iteration (q ++ concat consumed) /\
      enqueued tr = concat consumed.
Proof.
  induction fuel as [|fuel IH]; intros q flag ps tr0 Hfuel; [lia|].
  destruct q as [|j rest].
  - exists [], ps, []. cbn. rewrite app_nil_r. auto.
  - cbn [while_loop messageQueue length Nat.ltb Nat.leb].
    destruct (loop_body_spec j rest flag ps tr0)
      as (c1 & ps1 & tr1 & Hbody & Hps & Hev & Henq & Hlen).
    rewrite Hbody.
    destruct (IH (rest ++ concat c1) flag ps1 (tr0 ++ tr1))
      as (c2 & ps2 & tr2 & Hloop & Hps2 & Hev2 & Henq2).
    { rewrite length_app. cbn [length] in Hfuel. lia. }
    exists (c1 ++ c2), ps2, (tr1 ++ tr2).
    rewrite Hloop, app_assoc. split; [reflexivity|].
    split; [rewrite <- app_assoc; congruence|].
    rewrite loop_events_app, enqueued_app, Hev, Hev2, Henq, Henq2, concat_app.
    split; [|reflexivity].
    cbn [app flat_map]. rewrite <- app_assoc. reflexivity.
Qed.

Lemma processMessageQueue_spec fuel q flag ps tr0 :
  (length q + length (concat ps) < fuel)%nat ->
  exists consumed ps' tr,
    processMessageQueue fuel (mkWorld q flag ps tr0) =
      Some (Ok tt, mkWorld [] false ps' (tr0 ++ tr)) /\
    ps = consumed ++ ps' /\
    loop_events tr = flat_map iteration (q ++ concat consumed) /\
    enqueued tr = concat consumed.
Proof.
  intros Hfuel. unfold processMessageQueue, set_processing. world_simpl.
  destruct (while_loop_spec q true ps tr0 Hfuel)
    as (c & ps' & tr & Hloop & Hps & Hev & Henq).
  rewrite Hloop. exists c, ps', tr. auto.
Qed.

(** A call made while the loop runs only pushes. *)
Lemma queueWhatsAppMessage_while_processing fuel j w :
  isProcessingQueue w = true ->
  queueWhatsAppMessage fuel j w = Some (push j w).
Proof.
  intros Hflag. unfold queueWhatsAppMessage, push. world_simpl.
  rewrite Hflag. reflexivity.
Qed.

(** A call made while the queue is idle starts the loop and settles when the
    loop has emptied the queue. *)
Lemma queueWhatsAppMessage_when_idle fuel j q ps tr0 :
  (S (length q) + length (concat ps) < fuel)%nat ->
  exists consumed ps' tr,
    queueWhatsAppMessage fuel j (mkWorld q false ps tr0) =
      Some (Ok tt, mkWorld [] false ps' (tr0 ++ EvPush j :: tr)) /\
    ps = consumed ++ ps' /\
    loop_events tr = flat_map iteration (q ++ j :: concat consumed) /\
    enqueued tr = concat consumed.
Proof.
  intros Hfuel. unfold queueWhatsAppMessage, push. world_simpl.
  cbn [negb].
  assert (Hfuel' : (length (q ++ [j]) + length (concat ps) < fuel)%nat)
    by (rewrite length_app; cbn [length]; lia).
  destruct (processMessageQueue_spec (q ++ [j]) false ps (tr0 ++ [EvPush j]) Hfuel')
    as (c & ps' & tr & Hrun & Hps & Hev & Henq).
  rewrite Hrun. exists c, ps', tr. rewrite <- !app_assoc in *.
  cbn [app] in *. auto.
Qed.

(** In a trace made of whole iterations, what follows the start of a job is
    fixed by the job's outcome. *)
Lemma iterations_after_run js :
  forall pre j post,
    flat_map iteration js = pre ++ EvRun j :: post ->
    match job_outcome j with
    | Resolves => exists post', post = EvTimeout MESSAGE_RATE_LIMIT :: post'
    | Rejects e =>
        exists post', post = EvConsoleError e :: post' /\
          (post' = [] \/ exists j' post'', post' = EvRun j' :: post'')
    end.
Proof.
  induction js as [|j0 js IH]; intros pre j post Heq.
  - destruct pre; discriminate.
  - cbn [flat_map] in Heq.
    assert (Hnext : flat_map iteration js = [] \/
                    exists j' post'', flat_map iteration js = EvRun j' :: post'').
    { destruct js as [|j1 js1]; [left; reflexivity|right].
      cbn [flat_map]. unfold iteration at 1.
      destruct (job_outcome j1); cbn [app]; eauto. }
    destruct pre as [|e1 [|e2 pre]].
    + unfold iteration in Heq at 1.
      destruct (job_outcome j0) as [|e] eqn:Hout; cbn [app] in Heq;
        injection Heq as Hj Hpost; subst j0; rewrite Hout; eauto.
    + unfold iteration in Heq at 1.
      destruct (job_outcome j0); cbn [app] in Heq; discriminate.
    + apply (IH pre j post).
      unfold iteration in Heq at 1.
      destruct (job_outcome j0); cbn [app] in Heq; congruence.
Qed.

(** C1 (as amended).  In the events of a drain, the start of a job that
    fulfils is followed at once by the wait of [MESSAGE_RATE_LIMIT] = 1000 ms,
    so the wait comes before the next job starts; the start of a job that
    rejects is followed by the logging of its error and then directly by the
    start of the next job, if there is one. *)
Theorem delay_after_each_successful_job fuel j q ps tr0 :
  (S (length q) + length (concat ps) < fuel)%nat ->
  exists ps' tr,
    queueWhatsAppMessage fuel j (mkWorld q false ps tr0) =
      Some (Ok tt, mkWorld [] false ps' (tr0 ++ tr)) /\
    MESSAGE_RATE_LIMIT = 1000%Z /\
    forall pre x post,
      loop_events tr = pre ++ EvRun x :: post ->
      match job_outcome x with
      | Resolves => exists post', post = EvTimeout 1000 :: post'
      | Rejects e =>
          exists post', post = EvConsoleError e :: post' /\
            (post' = [] \/ exists x' post'', post' = EvRun x' :: post'')
      end.
Proof.
  intros Hfuel.
  destruct (queueWhatsAppMessage_when_idle j q ps tr0 Hfuel)
    as (c & ps' & tr & Hrun & _ & Hev & _).
  exists ps', (EvPush j :: tr). split; [exact Hrun|]. split; [reflexivity|].
  intros pre x post Hsplit. cbn [loop_events] in Hsplit.
  rewrite Hev in Hsplit. exact (iterations_after_run _ _ _ _ Hsplit).
Qed.

Lemma delay_after_each_successful_job_witness :
  exists ps' tr,
    queueWhatsAppMessage 3 (mkJob 1 Resolves)
      (mkWorld [] false [[mkJob 2 (Rejects "timeout")]] []) =
      Some (Ok tt, mkWorld [] false ps' ([] ++ tr)) /\
    MESSAGE_RATE_LIMIT = 1000%Z /\
    forall pre x post,
      loop_events tr = pre ++ EvRun x :: post ->
      match job_outcome x with
      | Resolves => exists post', post = EvTimeout 1000 :: post'
      | Rejects e =>
          exists post', post = EvConsoleError e :: post' /\
            (post' = [] \/ exists x' post'', post' = EvRun x' :: post'')
      end.
Proof.
  apply (@delay_after_each_successful_job 3 (mkJob 1 Resolves) []
           [[mkJob 2 (Rejects "timeout")]] []).
  simpl. lia.
Defined.

(** C1, counterexample.  A job that rejects, enqueued on the idle queue while
    a second job arrives during its execution: the second job starts right
    after the error is logged, no wait lies between the two executions. *)
Lemma no_delay_after_failed_job :
  queueWhatsAppMessage 3 (mkJob 1 (Rejects "send failed"))
    (mkWorld [] false [[mkJob 2 Resolves]] []) =
  Some (Ok tt,
        mkWorld [] false []
          [EvPush (mkJob 1 (Rejects "send failed"));
           EvRun (mkJob 1 (Rejects "send failed"));
           EvPush (mkJob 2 Resolves);
           EvConsoleError "send failed";
           EvRun (mkJob 2 Resolves);
           EvTimeout 1000]).
Proof. reflexivity. Qed.

(** C2 (as amended).  The call cannot fail.  Made while the drain loop runs,
    it pushes the job and returns: nothing is executed, nothing is waited for.
    Made on the idle queue, it starts the loop and its promise settles only
    when the loop has emptied the queue, after the job and all jobs pushed
    meanwhile have been executed. *)
Theorem enqueue_returns_at_once_only_while_draining fuel j q ps tr0 :
  (S (length q) + length (concat ps) < fuel)%nat ->
  queueWhatsAppMessage fuel j (mkWorld q true ps tr0) =
    Some (Ok tt, mkWorld (q ++ [j]) true ps (tr0 ++ [EvPush j])) /\
  exists consumed ps' tr,
    queueWhatsAppMessage fuel j (mkWorld q false ps tr0) =
      Some (Ok tt, mkWorld [] false ps' (tr0 ++ EvPush j :: tr)) /\
    ps = consumed ++ ps' /\
    executed tr = q ++ j :: concat consumed /\
    loop_events tr = flat_map iteration (executed tr).
Proof.
  intros Hfuel. split.
  - rewrite queueWhatsAppMessage_while_processing by reflexivity. reflexivity.
  - destruct (queueWhatsAppMessage_when_idle j q ps tr0 Hfuel)
      as (c & ps' & tr & Hrun & Hps & Hev & _).
    exists c, ps', tr. split; [exact Hrun|]. split; [exact Hps|].
    assert (Hexec : executed tr = q ++ j :: concat c)
      by (rewrite <- executed_loop_events, Hev; apply executed_iterations).
    split; [exact Hexec|]. rewrite Hexec. exact Hev.
Qed.

Lemma enqueue_returns_at_once_only_while_draining_witness :
  queueWhatsAppMessage 2 (mkJob 7 Resolves) (mkWorld [] true [] []) =
    Some (Ok tt, mkWorld ([] ++ [mkJob 7 Resolves]) true []
                         ([] ++ [EvPush (mkJob 7 Resolves)])) /\
  exists consumed ps' tr,
    queueWhatsAppMessage 2 (mkJob 7 Resolves) (mkWorld [] false [] []) =
      Some (Ok tt, mkWorld [] false ps' ([] ++ EvPush (mkJob 7 Resolves) :: tr)) /\
    [] = consumed ++ ps' /\
    executed tr = [] ++ mkJob 7 Resolves :: concat consumed /\
    loop_events tr = flat_map iteration (executed tr).
Proof.
  apply (@enqueue_returns_at_once_only_while_draining 2 (mkJob 7 Resolves) [] [] []).
  simpl. lia.
Defined.

(** C2, counterexample.  The call that starts the drain loop does not return
    control before any job is executed: when its promise settles, the job has
    been run and the 1000 ms wait has elapsed. *)
Lemma enqueue_on_idle_queue_runs_the_job :
  queueWhatsAppMessage 2 (mkJob 1 Resolves) idle =
  Some (Ok tt,
        mkWorld [] false []
          [EvPush (mkJob 1 Resolves); EvRun (mkJob 1 Resolves); EvTimeout 1000]).
Proof. reflexivity. Qed.

Lemma queue_each_spec fuel js :
  forall ps tr0,
    (1 + length (concat ps) < fuel)%nat ->
    exists consumed ps' tr,
      queue_each fuel js (mkWorld [] false ps tr0) =
        Some (Ok tt, mkWorld [] false ps' (tr0 ++ tr)) /\
      ps = consumed ++ ps' /\
      executed tr = enqueued tr /\
      Permutation (enqueued tr) (js ++ concat consumed).
Proof.
  induction js as [|j js IH]; intros ps tr0 Hfuel.
  - exists [], ps, []. cbn. rewrite app_nil_r. auto.
  - cbn [queue_each].
    destruct (queueWhatsAppMessage_when_idle j [] ps tr0 Hfuel)
      as (c1 & ps1 & tr1 & Hrun & Hps & Hev & Henq).
    rewrite Hrun.
    assert (Hlen : (1 + length (concat ps1) < fuel)%nat).
    { subst ps. rewrite concat_app, length_app in Hfuel. lia. }
    destruct (IH ps1 (tr0 ++ EvPush j :: tr1) Hlen)
      as (c2 & ps2 & tr2 & Hrest & Hps2 & Hfifo & Hperm).
    exists (c1 ++ c2), ps2, (EvPush j :: tr1 ++ tr2).
    rewrite Hrest, <- app_assoc. split; [reflexivity|].
    split; [rewrite <- app_assoc; congruence|].
    assert (Hexec : executed tr1 = j :: concat c1)
      by (rewrite <- executed_loop_events, Hev; apply executed_iterations).
    cbn [executed enqueued].
    rewrite executed_app, enqueued_app, Hexec, Henq, Hfifo.
    split; [reflexivity|].
    rewrite concat_app. cbn [app]. apply perm_skip.
    rewrite (app_assoc js). apply Permutation_trans with (concat c1 ++ js ++ concat c2).
    + apply Permutation_app_head. exact Hperm.
    + rewrite !app_assoc. apply Permutation_app_tail, Permutation_app_comm.
Qed.

(** C3.  Callers hand jobs to the queue, some on the idle queue (each such
    call starts a drain) and some while a drain is running.  Once the calls
    have settled, the jobs started are, in order and in number, the jobs
    pushed: the k-th job run is the k-th job enqueued, so each is attempted
    once.  The pushes are those of the callers alone: the loop puts no job
    back, and the queue ends empty and idle. *)
Theorem jobs_run_once_in_enqueue_order fuel js ps :
  (1 + length (concat ps) < fuel)%nat ->
  exists consumed ps' tr,
    queue_each fuel js (mkWorld [] false ps []) =
      Some (Ok tt, mkWorld [] false ps' tr) /\
    ps = consumed ++ ps' /\
    executed tr = enqueued tr /\
    Permutation (enqueued tr) (js ++ concat consumed).
Proof.
  intros Hfuel.
  destruct (queue_each_spec js ps [] Hfuel) as (c & ps' & tr & H).
  exists c, ps', tr. exact H.
Qed.

Lemma jobs_run_once_in_enqueue_order_witness :
  exists consumed ps' tr,
    queue_each 4 [mkJob 1 Resolves; mkJob 4 Resolves]
      (mkWorld [] false [[mkJob 2 (Rejects "x")]; [mkJob 3 Resolves]] []) =
      Some (Ok tt, mkWorld [] false ps' tr) /\
    [[mkJob 2 (Rejects "x")]; [mkJob 3 Resolves]] = consumed ++ ps' /\
    executed tr = enqueued tr /\
    Permutation (enqueued tr)
      ([mkJob 1 Resolves; mkJob 4 Resolves] ++ concat consumed).
Proof.
  apply (@jobs_run_once_in_enqueue_order 4 [mkJob 1 Resolves; mkJob 4 Resolves]
           [[mkJob 2 (Rejects "x")]; [mkJob 3 Resolves]]).
  simpl. lia.
Defined.

Lemma logged_in_iterations js x e :
  In x js -> job_outcome x = Rejects e ->
  In (EvConsoleError e) (flat_map iteration js).
Proof.
  intros Hin Hout. apply in_flat_map. exists x. split; [exact Hin|].
  unfold iteration. rewrite Hout. cbn. auto.
Qed.

Lemma In_loop_events e tr : In e (loop_events tr) -> In e tr.
Proof.
  induction tr as [|e0 tr IH]; cbn; [auto|].
  destruct e0; cbn; intuition.
Qed.

(** C4.  Whatever the jobs do, the call that starts the drain settles
    normally with the queue empty and idle: every job that was pending, the
    job of the call and every job pushed during the drain has been started,
    in that order, and the error of each job that rejected has been logged.
    With three jobs of which the second throws, the three are started once
    each, in order, the first and the third followed by their wait and the
    second by the logging of its error. *)
Theorem failed_job_does_not_stop_the_queue :
  (forall fuel j q ps tr0,
     (S (length q) + length (concat ps) < fuel)%nat ->
     exists consumed ps' tr,
       queueWhatsAppMessage fuel j (mkWorld q false ps tr0) =
         Some (Ok tt, mkWorld [] false ps' (tr0 ++ tr)) /\
       ps = consumed ++ ps' /\
       executed tr = q ++ j :: concat consumed /\
       forall x e, In x (executed tr) -> job_outcome x = Rejects e ->
                   In (EvConsoleError e) tr) /\
  (forall e,
     queueWhatsAppMessage 4 (mkJob 1 Resolves)
       (mkWorld [] false [[mkJob 2 (Rejects e); mkJob 3 Resolves]] []) =
     Some (Ok tt,
           mkWorld [] false []
             [EvPush (mkJob 1 Resolves);
              EvRun (mkJob 1 Resolves);
              EvPush (mkJob 2 (Rejects e));
              EvPush (mkJob 3 Resolves);
              EvTimeout 1000;
              EvRun (mkJob 2 (Rejects e));
              EvConsoleError e;
              EvRun (mkJob 3 Resolves);
              EvTimeout 1000])).
Proof.
  split; [|reflexivity].
  intros fuel j q ps tr0 Hfuel.
  destruct (queueWhatsAppMessage_when_idle j q ps tr0 Hfuel)
    as (c & ps' & tr & Hrun & Hps & Hev & _).
  exists c, ps', (EvPush j :: tr). split; [exact Hrun|]. split; [exact Hps|].
  assert (Hexec : executed tr = q ++ j :: concat c)
    by (rewrite <- executed_loop_events, Hev; apply executed_iterations).
  cbn [executed]. split; [exact Hexec|].
  intros x e Hin Hout. right. apply In_loop_events.
  rewrite Hev. rewrite Hexec in Hin. exact (logged_in_iterations _ _ Hin Hout).
Qed.

Lemma failed_job_does_not_stop_the_queue_witness :
  exists consumed ps' tr,
    queueWhatsAppMessage 5 (mkJob 2 (Rejects "provider down"))
      (mkWorld [mkJob 1 Resolves] false [[mkJob 3 Resolves]] []) =
      Some (Ok tt, mkWorld [] false ps' ([] ++ tr)) /\
    [[mkJob 3 Resolves]] = consumed ++ ps' /\
    executed tr =
      [mkJob 1 Resolves] ++ mkJob 2 (Rejects "provider down") :: concat consumed /\
    forall x e, In x (executed tr) -> job_outcome x = Rejects e ->
                In (EvConsoleError e) tr.
Proof.
  apply (proj1 failed_job_does_not_stop_the_queue 5
           (mkJob 2 (Rejects "provider down")) [mkJob 1 Resolves]
           [[mkJob 3 Resolves]] []).
  simpl. lia.
Defined.

End ONQProps.

(** * Properties of the retry wrapper *)

Module RetryProps.
Import Retry.
Local Open Scope Z_scope.

Section WithProvider.

Variable outcome :
  nat -> string -> string -> option string -> Result WhatsAppResponse.
Variables (to message : string) (mediaUrl : option string) (maxRetries : Z).

Lemma world_eta w : mkWorld (sends w) (trace w) = w.
Proof. destruct w; reflexivity. Qed.

(** The world after a failed attempt, whichever branch of the inner [if]. *)
Ltac after_failed_attempt w attempt error :=
  match goal with
  | |- context [for_attempts _ _ _ _ _ _ _ _ ?w'] =>
      replace w' with
        (mkWorld (S (sends w))
                 (trace w ++ failed_attempt to message maxRetries mediaUrl
                                            attempt error))
        by (unfold failed_attempt, emit; destruct (attempt <? maxRetries);
            cbn [sends trace]; rewrite <- ?app_assoc; reflexivity)
  end.

(** [n] attempts are left and the provider fails each of them. *)
Lemma for_attempts_all_fail (err : nat -> string) :
  forall n fuel attempt lastError w,
    (forall i, (i < n)%nat ->
               outcome (sends w + i) to message mediaUrl = Throw (err (sends w + i)%nat)) ->
    Z.of_nat n = maxRetries - attempt + 1 ->
    (n < fuel)%nat ->
    for_attempts outcome fuel to message maxRetries mediaUrl attempt lastError w =
      Some (Finished (match n with
                      | O => lastError
                      | S n' => Some (err (sends w + n')%nat)
                      end),
            mkWorld (sends w + n)
                    (trace w ++ failed_attempts to message maxRetries mediaUrl
                                                err n attempt (sends w))).
Proof.
  induction n as [|n IH]; intros fuel attempt lastError w Hfail Hleft Hfuel;
    (destruct fuel as [|fuel]; [lia|]); cbn [for_attempts failed_attempts].
  - destruct (Z.leb_spec attempt maxRetries) as [Hle|_]; [lia|].
    rewrite Nat.add_0_r, app_nil_r, world_eta. reflexivity.
  - destruct (Z.leb_spec attempt maxRetries) as [_|Hgt]; [|lia].
    unfold sendWhatsAppMessage. cbn [sends trace emit].
    generalize (Hfail O ltac:(lia)). rewrite Nat.add_0_r. intros ->.
    after_failed_attempt w attempt (err (sends w)).
    rewrite IH with (fuel := fuel); cbn [sends trace].
    + f_equal. f_equal.
      * destruct n as [|n'].
        -- rewrite Nat.add_0_r. reflexivity.
        -- replace (S (sends w) + n')%nat with (sends w + S n')%nat by lia.
           reflexivity.
      * rewrite <- app_assoc. f_equal. lia.
    + intros i Hi.
      replace (S (sends w) + i)%nat with (sends w + S i)%nat by lia.
      apply Hfail; lia.
    + lia.
    + lia.
Qed.

(** The provider fails [m] attempts and then succeeds, within the budget. *)
Lemma for_attempts_first_success (err : nat -> string) (r : WhatsAppResponse) :
  forall m fuel attempt lastError w,
    (forall i, (i < m)%nat ->
               outcome (sends w + i) to message mediaUrl = Throw (err (sends w + i)%nat)) ->
    outcome (sends w + m) to message mediaUrl = Ok r ->
    attempt + Z.of_nat m <= maxRetries ->
    (m < fuel)%nat ->
    for_attempts outcome fuel to message maxRetries mediaUrl attempt lastError w =
      Some (Returned r,
            mkWorld (sends w + S m)
                    (trace w ++ failed_attempts to message maxRetries mediaUrl
                                                err m attempt (sends w)
                             ++ [EvLogAttempt (attempt + Z.of_nat m) maxRetries to;
                                 EvSend to message mediaUrl])).
Proof.
  induction m as [|m IH]; intros fuel attempt lastError w Hfail Hok Hle Hfuel;
    (destruct fuel as [|fuel]; [lia|]); cbn [for_attempts failed_attempts];
    (destruct (Z.leb_spec attempt maxRetries) as [_|Hgt]; [|lia]);
    unfold sendWhatsAppMessage; cbn [sends trace emit].
  - rewrite Nat.add_0_r in Hok. rewrite Hok.
    rewrite Z.add_0_r, <- app_assoc. do 3 f_equal. lia.
  - generalize (Hfail O ltac:(lia)). rewrite Nat.add_0_r. intros ->.
    after_failed_attempt w attempt (err (sends w)).
    rewrite IH with (fuel := fuel); cbn [sends trace].
    + f_equal. f_equal.
      replace (attempt + 1 + Z.of_nat m) with (attempt + Z.of_nat (S m)) by lia.
      rewrite <- !app_assoc. f_equal. lia.
    + intros i Hi.
      replace (S (sends w) + i)%nat with (sends w + S i)%nat by lia.
      apply Hfail; lia.
    + replace (S (sends w) + m)%nat with (sends w + S m)%nat by lia. exact Hok.
    + lia.
    + lia.
Qed.

Lemma send_count_app tr1 tr2 :
  send_count (tr1 ++ tr2) = (send_count tr1 + send_count tr2)%nat.
Proof.
  induction tr1 as [|e tr1 IH]; cbn [app send_count]; [reflexivity|].
  destruct e; cbn; rewrite IH; reflexivity.
Qed.

Lemma waits_app tr1 tr2 : waits (tr1 ++ tr2) = waits tr1 ++ waits tr2.
Proof.
  induction tr1 as [|e tr1 IH]; cbn [app waits]; [reflexivity|].
  destruct e; cbn; rewrite IH; reflexivity.
Qed.

Lemma send_count_failed_attempts err n :
  forall attempt call,
    send_count (failed_attempts to message maxRetries mediaUrl err n attempt call) = n.
Proof.
  induction n as [|n IH]; intros attempt call; cbn [failed_attempts];
    [reflexivity|].
  rewrite send_count_app, IH. unfold failed_attempt.
  destruct (attempt <? maxRetries); reflexivity.
Qed.

(** The backoff waits of [n] failed attempts that are all followed by another
    attempt: [2^k] seconds after attempt [k]. *)
Lemma waits_failed_attempts_below err n :
  forall s call,
    Z.of_nat s + Z.of_nat n <= maxRetries ->
    waits (failed_attempts to message maxRetries mediaUrl err n (Z.of_nat s) call)
    = map (fun k => 2 ^ Z.of_nat k * 1000) (seq s n).
Proof.
  induction n as [|n IH]; intros s call Hle; cbn [failed_attempts seq map];
    [reflexivity|].
  rewrite waits_app. unfold failed_attempt.
  destruct (Z.ltb_spec (Z.of_nat s) maxRetries) as [_|Hge]; [|lia].
  cbn [app waits]. f_equal.
  replace (Z.of_nat s + 1) with (Z.of_nat (S s)) by lia.
  apply IH. lia.
Qed.

(** The backoff waits of the [n] failed attempts that use up the budget: the
    last attempt is followed by no wait. *)
Lemma waits_failed_attempts_exhausted err n :
  forall s call,
    Z.of_nat s + Z.of_nat n = maxRetries + 1 ->
    waits (failed_attempts to message maxRetries mediaUrl err n (Z.of_nat s) call)
    = map (fun k => 2 ^ Z.of_nat k * 1000) (seq s (n - 1)).
Proof.
  induction n as [|n IH]; intros s call Hsum; cbn [failed_attempts];
    [reflexivity|].
  rewrite waits_app. unfold failed_attempt.
  replace (Z.of_nat s + 1) with (Z.of_nat (S s)) by lia.
  rewrite IH by lia.
  destruct (Z.ltb_spec (Z.of_nat s) maxRetries) as [Hlt|Hge].
  - destruct n as [|n']; [lia|]. cbn. rewrite Nat.sub_0_r. reflexivity.
  - destruct n as [|n']; [reflexivity|lia].
Qed.

Lemma failed_attempts_end err n :
  forall attempt call,
    attempt + Z.of_nat n = maxRetries ->
    exists tr',
      failed_attempts to message maxRetries mediaUrl err (S n) attempt call
      = tr' ++ [EvLogFailed maxRetries (err (call + n)%nat)].
Proof.
  induction n as [|n IH]; intros attempt call Hsum.
  - assert (Ha : attempt = maxRetries) by lia. subst attempt.
    cbn [failed_attempts]. unfold failed_attempt.
    rewrite Z.ltb_irrefl.
    exists [EvLogAttempt maxRetries maxRetries to; EvSend to message mediaUrl].
    rewrite Nat.add_0_r, !app_nil_r. reflexivity.
  - destruct (IH (attempt + 1) (S call)) as (tr' & Heq); [lia|].
    change (failed_attempts to message maxRetries mediaUrl err (S (S n)) attempt call)
      with (failed_attempt to message maxRetries mediaUrl attempt (err call)
            ++ failed_attempts to message maxRetries mediaUrl err (S n)
                               (attempt + 1) (S call)).
    rewrite Heq.
    exists (failed_attempt to message maxRetries mediaUrl attempt (err call) ++ tr').
    rewrite <- app_assoc.
    replace (S call + n)%nat with (call + S n)%nat by lia. reflexivity.
Qed.

(** C5.  The provider fails every attempt of a budget of [maxRetries] >= 1
    attempts (3 in the claim; an omitted budget is 3).  Then the primitive is
    called [maxRetries] times; attempt [k] is followed by a wait of
    [2^k * 1000] ms when another attempt follows it, so the waits are 2000 and
    4000 for a budget of 3; the last event is the logging of the last failure,
    with no wait after it; and the call throws an error whose message ends
    with the message of the last failure. *)
Theorem all_attempts_fail_then_aggregate_error (err : nat -> string) :
  1 <= maxRetries ->
  (forall i, (i < Z.to_nat maxRetries)%nat ->
             outcome i to message mediaUrl = Throw (err i)) ->
  let n := Z.to_nat maxRetries in
  let tr := failed_attempts to message maxRetries mediaUrl err n 1 0 in
  sendWhatsAppWithRetry outcome to message (Some maxRetries) mediaUrl start =
    Some (Throw ("WhatsApp send failed after " ++ number_to_string maxRetries
                 ++ " attempts. Last error: " ++ err (n - 1)%nat)%string,
          mkWorld n tr) /\
  send_count tr = n /\
  waits tr = map (fun k => 2 ^ Z.of_nat k * 1000) (seq 1 (n - 1)) /\
  (exists tr', tr = tr' ++ [EvLogFailed maxRetries (err (n - 1)%nat)]) /\
  sendWhatsAppWithRetry outcome to message None mediaUrl start =
    sendWhatsAppWithRetry outcome to message (Some 3) mediaUrl start.
Proof.
  intros Hpos Hfail n tr. subst tr.
  assert (Hn : Z.of_nat n = maxRetries) by (subst n; lia).
  repeat split.
  - unfold sendWhatsAppWithRetry. fold n.
    rewrite for_attempts_all_fail with (err := err) (n := n);
      cbn [sends trace start]; try lia.
    + destruct n as [|n'] eqn:En; [lia|].
      cbn [Nat.add app Nat.sub]. rewrite Nat.sub_0_r. reflexivity.
    + intros i Hi. apply Hfail. exact Hi.
  - apply send_count_failed_attempts.
  - apply (waits_failed_attempts_exhausted err n 1 0). lia.
  - destruct n as [|n'] eqn:En; [lia|].
    destruct (failed_attempts_end err n' 1 0) as (tr' & Heq); [lia|].
    exists tr'. rewrite Heq. cbn [Nat.add Nat.sub]. rewrite Nat.sub_0_r.
    reflexivity.
Qed.

(** C6.  The provider fails [m] attempts and succeeds at attempt [m + 1],
    within the budget.  Then the call returns the result of that attempt; the
    primitive has been called [m + 1] times and not again; the waits are
    those after the [m] failed attempts; and the last event is the successful
    send, with no wait after it. *)
Theorem first_success_is_returned_at_once (err : nat -> string)
  (r : WhatsAppResponse) (m : nat) :
  Z.of_nat m < maxRetries ->
  (forall i, (i < m)%nat -> outcome i to message mediaUrl = Throw (err i)) ->
  outcome m to message mediaUrl = Ok r ->
  let tr := failed_attempts to message maxRetries mediaUrl err m 1 0
            ++ [EvLogAttempt (1 + Z.of_nat m) maxRetries to;
                EvSend to message mediaUrl] in
  sendWhatsAppWithRetry outcome to message (Some maxRetries) mediaUrl start =
    Some (Ok r, mkWorld (S m) tr) /\
  send_count tr = S m /\
  waits tr = map (fun k => 2 ^ Z.of_nat k * 1000) (seq 1 m).
Proof.
  intros Hlt Hfail Hok tr. subst tr. repeat split.
  - unfold sendWhatsAppWithRetry.
    rewrite for_attempts_first_success with (err := err) (r := r) (m := m);
      cbn [sends trace start Nat.add app]; auto; lia.
  - rewrite send_count_app, send_count_failed_attempts. cbn. lia.
  - pose proof (waits_failed_attempts_below err m 1 0) as Hw.
    change (Z.of_nat 1) with 1 in Hw.
    rewrite waits_app, Hw by lia. cbn. apply app_nil_r.
Qed.

(** C10.  With a budget of 0 or less the loop body never runs: the world is
    left as it was (no call of the primitive, no wait), [lastError] is still
    null when the loop ends, and the call throws the aggregate error, in whose
    message the last error reads "undefined". *)
Theorem no_attempt_without_budget (w : World) :
  maxRetries <= 0 ->
  for_attempts outcome (S (Z.to_nat maxRetries)) to message maxRetries mediaUrl
               1 None w = Some (Finished None, w) /\
  sendWhatsAppWithRetry outcome to message (Some maxRetries) mediaUrl w =
    Some (Throw ("WhatsApp send failed after " ++ number_to_string maxRetries
                 ++ " attempts. Last error: undefined")%string, w).
Proof.
  intros Hle. unfold sendWhatsAppWithRetry. cbn [for_attempts].
  destruct (Z.leb_spec 1 maxRetries) as [Hge|_]; [lia|].
  split; reflexivity.
Qed.

End WithProvider.

Lemma all_attempts_fail_then_aggregate_error_witness :
  sendWhatsAppWithRetry (fun _ _ _ _ => Throw "HTTP 500"%string)
    "+15550100" "Quote ready" (Some 3) None start =
    Some (Throw "WhatsApp send failed after 3 attempts. Last error: HTTP 500"%string,
          mkWorld 3
            [EvLogAttempt 1 3 "+15550100"; EvSend "+15550100" "Quote ready" None;
             EvLogFailed 1 "HTTP 500"; EvLogWaiting 2000; EvTimeout 2000;
             EvLogAttempt 2 3 "+15550100"; EvSend "+15550100" "Quote ready" None;
             EvLogFailed 2 "HTTP 500"; EvLogWaiting 4000; EvTimeout 4000;
             EvLogAttempt 3 3 "+15550100"; EvSend "+15550100" "Quote ready" None;
             EvLogFailed 3 "HTTP 500"]).
Proof.
  apply (@all_attempts_fail_then_aggregate_error
           (fun _ _ _ _ => Throw "HTTP 500"%string)
           "+15550100"%string "Quote ready"%string None 3
           (fun _ => "HTTP 500"%string)).
  - lia.
  - intros i _. reflexivity.
Defined.

Lemma first_success_is_returned_at_once_witness :
  sendWhatsAppWithRetry
    (fun n _ _ _ => if Nat.eqb n 1
                    then Ok (mkResponse "SM1" "sent" "2024-01-01T00:00:00Z" "twilio")
                    else Throw "HTTP 500"%string)
    "+15550100" "Quote ready" (Some 3) None start =
    Some (Ok (mkResponse "SM1" "sent" "2024-01-01T00:00:00Z" "twilio"),
          mkWorld 2
            [EvLogAttempt 1 3 "+15550100"; EvSend "+15550100" "Quote ready" None;
             EvLogFailed 1 "HTTP 500"; EvLogWaiting 2000; EvTimeout 2000;
             EvLogAttempt 2 3 "+15550100"; EvSend "+15550100" "Quote ready" None]).
Proof.
  apply (@first_success_is_returned_at_once
           (fun n _ _ _ => if Nat.eqb n 1
                           then Ok (mkResponse "SM1" "sent" "2024-01-01T00:00:00Z" "twilio")
                           else Throw "HTTP 500"%string)
           "+15550100"%string "Quote ready"%string None 3
           (fun _ => "HTTP 500"%string)
           (mkResponse "SM1" "sent" "2024-01-01T00:00:00Z" "twilio") 1%nat).
  - lia.
  - intros i Hi. destruct i as [|i]; [reflexivity|lia].
  - reflexivity.
Defined.

Lemma no_attempt_without_budget_witness :
  sendWhatsAppWithRetry (fun _ _ _ _ => Throw "HTTP 500"%string)
    "+15550100" "Quote ready" (Some 0) None start =
    Some (Throw "WhatsApp send failed after 0 attempts. Last error: undefined"%string,
          start).
Proof.
  apply (@no_attempt_without_budget
           (fun _ _ _ _ => Throw "HTTP 500"%string)
           "+15550100"%string "Quote ready"%string None 0 start).
  lia.
Defined.

End RetryProps.

(** * Properties of the data-access helper *)

Module DALProps.
Import DAL.
Local Open Scope string_scope.

(** ** Strings *)

Lemma append_nil_r s : s ++ "" = s.
Proof. induction s as [|c s IH]; cbn; congruence. Qed.

Lemma append_assoc s1 s2 s3 : (s1 ++ s2) ++ s3 = s1 ++ s2 ++ s3.
Proof. induction s1 as [|c s1 IH]; cbn; congruence. Qed.

Lemma length_append s1 s2 :
  String.length (s1 ++ s2) = (String.length s1 + String.length s2)%nat.
Proof. induction s1 as [|c s1 IH]; cbn; congruence. Qed.

Lemma strip_prefix_append p rest : strip_prefix p (p ++ rest) = Some rest.
Proof.
  induction p as [|c p IH]; cbn; [reflexivity|].
  rewrite Ascii.eqb_refl. exact IH.
Qed.

Lemma strip_suffix_append suffix s :
  strip_suffix suffix (s ++ suffix) = Some s.
Proof.
  induction s as [|c s IH].
  - cbn [append]. destruct suffix; cbn [strip_suffix]; rewrite String.eqb_refl;
      reflexivity.
  - cbn [append strip_suffix]. rewrite IH.
    destruct (String.eqb_spec (String c (s ++ suffix)) suffix) as [Heq|_];
      [|reflexivity].
    apply (f_equal String.length) in Heq. cbn [String.length] in Heq.
    rewrite length_append in Heq. lia.
Qed.

Lemma span_ident_append name rest :
  is_ident_chars name = true -> ends_name rest ->
  span_ident (name ++ rest) = (name, rest).
Proof.
  induction name as [|c name IH]; cbn [append is_ident_chars span_ident];
    intros Hname Hrest.
  - destruct rest as [|c rest]; [reflexivity|].
    cbn [span_ident]. cbn in Hrest. rewrite Hrest. reflexivity.
  - apply andb_prop in Hname. destruct Hname as [Hc Hname].
    rewrite Hc, IH by assumption. reflexivity.
Qed.

Lemma is_ident_chars_of_ident name : is_ident name = true -> is_ident_chars name = true.
Proof. destruct name; [discriminate|auto]. Qed.

(** ** The statements of [selectAll] and [selectOne] *)

Lemma parse_select_all table :
  is_ident table = true ->
  parse ("SELECT * FROM " ++ table) = Some (SSelect table None false).
Proof.
  intros Hid. unfold parse.
  rewrite (strip_prefix_append "SELECT * FROM " table).
  unfold parse_select.
  rewrite <- (append_nil_r table) at 1.
  rewrite span_ident_append by (auto using is_ident_chars_of_ident; exact I).
  rewrite Hid. reflexivity.
Qed.

Lemma parse_select_one table where_ :
  is_ident table = true ->
  parse ("SELECT * FROM " ++ table ++ " WHERE " ++ where_ ++ " LIMIT 1")
  = Some (SSelect table (Some where_) true).
Proof.
  intros Hid. unfold parse.
  rewrite (strip_prefix_append "SELECT * FROM ").
  unfold parse_select.
  rewrite span_ident_append by (auto using is_ident_chars_of_ident; reflexivity).
  rewrite Hid.
  change (" WHERE " ++ where_ ++ " LIMIT 1")
    with (String " " ("WHERE " ++ where_ ++ " LIMIT 1")) at 1.
  cbv iota.
  rewrite (strip_prefix_append " WHERE "), strip_suffix_append. reflexivity.
Qed.

Lemma hd_error_firstn_1 {A} (l : list A) : hd_error (firstn 1 l) = hd_error l.
Proof. destruct l; reflexivity. Qed.

Lemma filter_nil_iff {A} (p : A -> bool) l :
  filter p l = [] <-> forall x, In x l -> p x = false.
Proof.
  induction l as [|a l IH]; cbn; [tauto|].
  destruct (p a) eqn:Hp; split.
  - discriminate.
  - intros Hall. specialize (Hall a (or_introl eq_refl)). congruence.
  - intros Hnil x [<-|Hin]; [assumption|]. apply IH; assumption.
  - intros Hall. apply IH. auto.
Qed.

(** The first element of [l] that passes [p]: everything before it fails. *)
Lemma hd_error_filter_first {A} (p : A -> bool) l r :
  hd_error (filter p l) = Some r ->
  exists before after,
    l = (before ++ r :: after)%list /\ p r = true /\
    forall x, In x before -> p x = false.
Proof.
  induction l as [|a l IH]; cbn; [discriminate|].
  destruct (p a) eqn:Hp; cbn.
  - intros [= ->]. exists [], l. cbn. tauto.
  - intros Hhd. destruct (IH Hhd) as (before & after & -> & Hr & Hbefore).
    exists (a :: before), after. cbn. repeat split; auto.
    intros x [<-|Hin]; auto.
Qed.

(** C8.  On a table of the store and a where-clause the store accepts as the
    row test [p], [selectOne] does not throw: it returns the first row of the
    table that passes [p], and the absent value when no row passes. *)
Theorem selectOne_first_match_or_absent
  (predicate : string -> list Value -> option (Row -> bool))
  (st : Store) (table where_ : string) (params : list Value)
  (t : Table) (p : Row -> bool) :
  is_ident table = true ->
  lookup table (tables st) = Some t ->
  predicate where_ params = Some p ->
  let found := selectOne (H := Sqlite predicate) st table where_ params in
  found = Ok (hd_error (filter p (rows t))) /\
  ((forall r, In r (rows t) -> p r = false) -> found = Ok None) /\
  (forall r, hd_error (filter p (rows t)) = Some r ->
     found = Ok (Some r) /\
     exists before after,
       rows t = (before ++ r :: after)%list /\ p r = true /\
       forall x, In x before -> p x = false).
Proof.
  intros Hid Htable Hpred found.
  assert (Hfound : found = Ok (hd_error (filter p (rows t)))).
  { subst found. unfold selectOne. cbn [stmt_get Sqlite]. unfold sqlite_get, sqlite_all.
    rewrite parse_select_one by exact Hid.
    unfold run_select. rewrite Htable, Hpred, hd_error_firstn_1. reflexivity. }
  split; [exact Hfound|]. split.
  - intros Hnone. rewrite Hfound.
    rewrite (proj2 (filter_nil_iff p (rows t)) Hnone). reflexivity.
  - intros r Hr. split; [rewrite Hfound, Hr; reflexivity|].
    exact (hd_error_filter_first p (rows t) Hr).
Qed.

(** C9.  Whatever the database, [selectAll] with the empty string as
    where-clause is [selectAll] without where-clause: both send the text
    [SELECT * FROM table], which has no [WHERE], with the same parameters.
    On the store model that statement, without parameters, yields all the
    rows of the table. *)
Theorem selectAll_empty_where_is_no_where :
  (forall (DB : Type) (H : Database DB) (db : DB) (table : string)
          (params : option (list Value)),
     selectAll db table (Some "") params = selectAll db table None params /\
     selectAll db table None params =
       stmt_all db ("SELECT * FROM " ++ table)
                (match params with Some ps => ps | None => [] end)) /\
  (forall (predicate : string -> list Value -> option (Row -> bool))
          (st : Store) (table : string) (t : Table),
     is_ident table = true ->
     lookup table (tables st) = Some t ->
     selectAll (H := Sqlite predicate) st table (Some "") (Some []) = Ok (rows t) /\
     selectAll (H := Sqlite predicate) st table None None = Ok (rows t)).
Proof.
  split.
  - intros DB H db table params. split; reflexivity.
  - intros predicate st table t Hid Htable.
    unfold selectAll. cbn [stmt_all Sqlite]. unfold sqlite_all.
    rewrite parse_select_all by exact Hid.
    unfold run_select. rewrite Htable. split; reflexivity.
Qed.

Lemma selectOne_first_match_or_absent_witness :
  selectOne (H := Sqlite equality_predicate) sample_store
    "watches" "id = ?" [VInt 2]
  = Ok (Some (watch 2 "Omega" "Speedmaster Professional"
                    "311.30.42.30.01.005" 2020 4200)) /\
  selectOne (H := Sqlite equality_predicate) sample_store
    "watches" "id = ?" [VInt 9]
  = Ok None.
Proof.
  split.
  - exact (proj1 (@selectOne_first_match_or_absent equality_predicate
             sample_store "watches" "id = ?" [VInt 2]
             (mkTable watches_columns
                [watch 1 "Rolex" "Submariner Date" "116610LN" 2019 12500;
                 watch 2 "Omega" "Speedmaster Professional"
                       "311.30.42.30.01.005" 2020 4200])
             (fun r => match lookup "id" r with
                       | Some x => value_eqb x (VInt 2)
                       | None => false
                       end)
             eq_refl eq_refl eq_refl)).
  - exact (proj1 (@selectOne_first_match_or_absent equality_predicate
             sample_store "watches" "id = ?" [VInt 9]
             (mkTable watches_columns
                [watch 1 "Rolex" "Submariner Date" "116610LN" 2019 12500;
                 watch 2 "Omega" "Speedmaster Professional"
                       "311.30.42.30.01.005" 2020 4200])
             (fun r => match lookup "id" r with
                       | Some x => value_eqb x (VInt 9)
                       | None => false
                       end)
             eq_refl eq_refl eq_refl)).
Defined.

Lemma selectAll_empty_where_is_no_where_witness :
  selectAll (H := Sqlite equality_predicate) sample_store
    "inquiries" (Some "") (Some [])
  = Ok [inquiry 1 2 "Ann" "ann@example.com"] /\
  selectAll (H := Sqlite equality_predicate) sample_store "inquiries" None None
  = Ok [inquiry 1 2 "Ann" "ann@example.com"].
Proof.
  exact (proj2 selectAll_empty_where_is_no_where equality_predicate
           sample_store "inquiries"
           (mkTable inquiries_columns [inquiry 1 2 "Ann" "ann@example.com"])
           eq_refl eq_refl).
Defined.

(** ** The statement of [update] *)

Lemma parse_stamp fuel where_ :
  parse_assignments (S fuel) ("updated_at = CURRENT_TIMESTAMP WHERE " ++ where_)
  = Some ([("updated_at", ECurrentTimestamp)]%list, where_).
Proof. reflexivity. Qed.

Lemma set_clause_one k : set_clause [k] = k ++ " = ?".
Proof. reflexivity. Qed.

Lemma set_clause_more k k2 ks :
  set_clause (k :: k2 :: ks) = (k ++ " = ?, ") ++ set_clause (k2 :: ks).
Proof.
  unfold set_clause. cbn [map].
  change (String.concat ", " ((k ++ " = ?") :: (k2 ++ " = ?")
                                :: map (fun key => key ++ " = ?") ks))
    with ((k ++ " = ?") ++ ", "
          ++ String.concat ", " ((k2 ++ " = ?")
                                   :: map (fun key => key ++ " = ?") ks)).
  rewrite !append_assoc. reflexivity.
Qed.

Lemma parse_assignments_set_clause where_ :
  forall ks fuel,
    ks <> []%list ->
    Forall (fun k => is_ident k = true) ks ->
    (length ks < fuel)%nat ->
    parse_assignments fuel (set_clause ks ++ stamp ++ where_)
    = Some ((map (fun k => (k, EParam)) ks
             ++ [("updated_at", ECurrentTimestamp)])%list, where_).
Proof.
  induction ks as [|k ks IH]; intros fuel Hne Hids Hfuel; [congruence|].
  destruct fuel as [|fuel]; [cbn in Hfuel; lia|].
  inversion Hids as [|? ? Hk Hks]; subst.
  assert (Hhead : forall rest,
            parse_assignments (S fuel) (k ++ " = ?, " ++ rest)
            = match parse_assignments fuel rest with
              | Some (assignments, w) => Some (((k, EParam) :: assignments)%list, w)
              | None => None
              end).
  { intros rest. cbn [parse_assignments].
    rewrite span_ident_append
      by (auto using is_ident_chars_of_ident; reflexivity).
    rewrite Hk. reflexivity. }
  destruct ks as [|k2 ks].
  - rewrite set_clause_one, append_assoc.
    change (" = ?" ++ stamp ++ where_)
      with (" = ?, " ++ "updated_at = CURRENT_TIMESTAMP WHERE " ++ where_).
    rewrite Hhead.
    destruct fuel as [|fuel]; [cbn in Hfuel; lia|].
    rewrite parse_stamp. reflexivity.
  - rewrite set_clause_more, !append_assoc.
    rewrite Hhead, IH; [reflexivity|discriminate|assumption|cbn in *; lia].
Qed.

Lemma length_set_clause ks : (length ks <= String.length (set_clause ks))%nat.
Proof.
  unfold set_clause. induction ks as [|k ks IH]; [cbn; lia|].
  destruct ks as [|k2 ks]; cbn [map String.concat length] in *.
  - rewrite length_append. cbn. lia.
  - rewrite !length_append. cbn [String.length]. lia.
Qed.

Lemma parse_update_statement table ks where_ :
  is_ident table = true ->
  ks <> []%list ->
  Forall (fun k => is_ident k = true) ks ->
  parse ("UPDATE " ++ table ++ " SET " ++ set_clause ks
         ++ ", updated_at = CURRENT_TIMESTAMP WHERE " ++ where_)
  = Some (SUpdate table
            (map (fun k => (k, EParam)) ks ++ [("updated_at", ECurrentTimestamp)])%list
            where_).
Proof.
  intros Hid Hne Hids. unfold parse.
  change (strip_prefix "SELECT * FROM " ("UPDATE " ++ _)) with (@None string).
  rewrite (strip_prefix_append "UPDATE ").
  unfold parse_update.
  rewrite span_ident_append by (auto using is_ident_chars_of_ident; reflexivity).
  rewrite Hid, (strip_prefix_append " SET ").
  fold stamp.
  rewrite parse_assignments_set_clause; [reflexivity|assumption|assumption|].
  rewrite length_append. pose proof (length_set_clause ks). cbn. lia.
Qed.

(** ** What the store does with the statement of [update] *)

Lemma unknown_column_none cols assignments :
  (forall c, In c (map fst assignments) -> In c cols) ->
  unknown_column cols assignments = None.
Proof.
  induction assignments as [|[c e] rest IH]; cbn [unknown_column map fst];
    intros Hall; [reflexivity|].
  assert (Hc : existsb (String.eqb c) cols = true).
  { apply existsb_exists. exists c. split; [apply Hall; left; reflexivity|].
    apply String.eqb_refl. }
  rewrite Hc. apply IH. intros c' Hin. apply Hall. right. exact Hin.
Qed.

Lemma bind_assignments_data data now whereParams :
  bind_assignments
    (map (fun k => (k, EParam)) (keys data) ++ [("updated_at", ECurrentTimestamp)])%list
    now (values data ++ whereParams)%list
  = Some ((data ++ [("updated_at", now)])%list, whereParams).
Proof.
  unfold keys, values.
  induction data as [|[k v] data IH]; [reflexivity|].
  cbn [map fst snd app bind_assignments].
  rewrite IH. reflexivity.
Qed.

Lemma lookup_set_column c c' v (r : Row) :
  lookup c (set_column c' v r) =
  if c' =? c
  then match lookup c r with Some _ => Some v | None => None end
  else lookup c r.
Proof.
  induction r as [|[k x] r IH]; cbn [set_column map lookup fst].
  - destruct (c' =? c); reflexivity.
  - fold (set_column c' v r).
    destruct (String.eqb_spec k c') as [->|Hk]; cbn [lookup].
    + destruct (String.eqb_spec c' c) as [->|Hc]; [reflexivity|].
      rewrite IH. destruct (String.eqb_spec c' c); [contradiction|reflexivity].
    + destruct (String.eqb_spec k c) as [->|Hkc].
      * destruct (String.eqb_spec c' c); [congruence|reflexivity].
      * exact IH.
Qed.

Lemma assign_snoc bound c v r :
  assign (bound ++ [(c, v)])%list r = set_column c v (assign bound r).
Proof. unfold assign. rewrite fold_left_app. reflexivity. Qed.

Lemma lookup_assign_other c bound :
  forall r, ~ In c (map fst bound) -> lookup c (assign bound r) = lookup c r.
Proof.
  unfold assign. induction bound as [|[k v] bound IH]; intros r Hnot;
    cbn [fold_left fst snd]; [reflexivity|].
  cbn [map fst In] in Hnot.
  rewrite IH by tauto. rewrite lookup_set_column.
  destruct (String.eqb_spec k c); [tauto|reflexivity].
Qed.

Lemma lookup_assign_defined c bound :
  forall r, lookup c r <> None -> lookup c (assign bound r) <> None.
Proof.
  unfold assign. induction bound as [|[k v] bound IH]; intros r Hdef;
    cbn [fold_left fst snd]; [exact Hdef|].
  apply IH. rewrite lookup_set_column.
  destruct (k =? c); [|exact Hdef].
  destruct (lookup c r); [discriminate|congruence].
Qed.

Lemma lookup_replace_table_other k k' t l :
  k' <> k -> lookup k' (replace_table k t l) = lookup k' l.
Proof.
  intros Hne. induction l as [|[k0 t0] l IH]; cbn [replace_table lookup];
    [reflexivity|].
  destruct (String.eqb_spec k0 k) as [->|Hk0]; cbn [lookup].
  - destruct (String.eqb_spec k k'); [congruence|reflexivity].
  - rewrite IH. reflexivity.
Qed.

Lemma lookup_replace_table_same k t t0 l :
  lookup k l = Some t0 -> lookup k (replace_table k t l) = Some t.
Proof.
  induction l as [|[k0 t1] l IH]; cbn [replace_table lookup]; [discriminate|].
  destruct (String.eqb_spec k0 k) as [->|Hk0]; cbn [lookup].
  - rewrite String.eqb_refl. reflexivity.
  - destruct (String.eqb_spec k0 k); [contradiction|]. exact IH.
Qed.

Lemma lookup_assign_key k v bound :
  forall r,
    NoDup (map fst bound) -> In (k, v) bound -> lookup k r <> None ->
    lookup k (assign bound r) = Some v.
Proof.
  unfold assign. induction bound as [|[k0 v0] bound IH]; intros r Hnodup Hin Hdef;
    [contradiction|].
  cbn [map fst] in Hnodup. inversion Hnodup as [|? ? Hfresh Hrest]; subst.
  cbn [fold_left fst snd]. destruct Hin as [[= -> ->]|Hin].
  - fold (assign bound (set_column k v r)).
    rewrite lookup_assign_other by exact Hfresh.
    rewrite lookup_set_column, String.eqb_refl.
    destruct (lookup k r); [reflexivity|congruence].
  - apply IH; [exact Hrest|exact Hin|].
    rewrite lookup_set_column. destruct (k0 =? k); [|exact Hdef].
    destruct (lookup k r); [discriminate|congruence].
Qed.

Lemma some_row_changed {A} (p : A -> bool) l :
  (0 <? Z.of_nat (length (filter p l)))%Z = existsb p l.
Proof.
  induction l as [|a l IH]; cbn [filter existsb]; [reflexivity|].
  destruct (p a); cbn [orb length]; [|exact IH].
  apply Z.ltb_lt. lia.
Qed.

(** Where the store accepts the statement, [update] does what C7 says.  The
    table has the columns named by the keys and an [updated_at] column, the
    partial row is not empty, and the store reads the where-clause as the
    row test [p].  Then [update] returns whether some row passes [p]; other
    tables are untouched; a row that fails [p] is left as it was; in a row
    that passes [p] every column other than the keys and [updated_at] keeps
    its value and [updated_at] holds the current timestamp. *)
Lemma update_touches_only_supplied_columns
  (predicate : string -> list Value -> option (Row -> bool))
  (st : Store) (table : string) (data : Row) (where_ : string)
  (whereParams : list Value) (t : Table) (p : Row -> bool) :
  is_ident table = true ->
  data <> []%list ->
  Forall (fun k => is_ident k = true) (keys data) ->
  (forall k, In k (keys data) -> In k (columns t)) ->
  In "updated_at" (columns t) ->
  lookup table (tables st) = Some t ->
  predicate where_ whereParams = Some p ->
  exists rows',
    let st' := mkStore (replace_table table (mkTable (columns t) rows') (tables st))
                       (current_timestamp st) in
    update (H := Sqlite predicate) st table data where_ whereParams
      = (Ok (existsb p (rows t)), st') /\
    lookup table (tables st') = Some (mkTable (columns t) rows') /\
    (forall other, other <> table ->
                   lookup other (tables st') = lookup other (tables st)) /\
    Forall2 (fun r r' =>
               if p r then
                 (forall c, ~ In c (keys data) -> c <> "updated_at" ->
                            lookup c r' = lookup c r) /\
                 (lookup "updated_at" r <> None ->
                  lookup "updated_at" r' = Some (VText (current_timestamp st))) /\
                 (NoDup (keys data) ->
                  forall k v, In (k, v) data -> k <> "updated_at" ->
                              lookup k r <> None -> lookup k r' = Some v)
               else r' = r)
            (rows t) rows'.
Proof.
  intros Hid Hne Hids Hcols Hstamp Htable Hpred.
  set (bound := (data ++ [("updated_at", VText (current_timestamp st))])%list).
  exists (map (fun r => if p r then assign bound r else r) (rows t)).
  cbn zeta. split; [|split; [|split]].
  - unfold update. cbn [stmt_run Sqlite]. unfold sqlite_run.
    fold (set_clause (keys data)).
    rewrite parse_update_statement;
      [|assumption|destruct data; [congruence|discriminate]|assumption].
    unfold run_update. rewrite Htable.
    rewrite unknown_column_none.
    + rewrite bind_assignments_data, Hpred, some_row_changed. reflexivity.
    + intros c. rewrite map_app, in_app_iff, map_map. cbn [map fst In].
      rewrite map_id. intros [Hin|[<-|[]]]; auto.
  - apply lookup_replace_table_same with (t0 := t). exact Htable.
  - intros other Hother. apply lookup_replace_table_other. exact Hother.
  - induction (rows t) as [|r rs IH]; cbn [map]; constructor; [|exact IH].
    destruct (p r); [|reflexivity]. split; [|split].
    + intros c Hkey Hc. apply lookup_assign_other.
      subst bound. rewrite map_app, in_app_iff. cbn [map fst In].
      intros [Hin|[Heq|[]]]; [exact (Hkey Hin)|congruence].
    + intros Hdef. subst bound. rewrite assign_snoc, lookup_set_column.
      rewrite String.eqb_refl.
      pose proof (@lookup_assign_defined "updated_at" data r Hdef) as Hdef'.
      destruct (lookup "updated_at" (assign data r)); [reflexivity|congruence].
    + intros Hnodup k v Hin Hk Hdef. subst bound.
      rewrite assign_snoc, lookup_set_column.
      destruct (String.eqb_spec "updated_at" k); [congruence|].
      apply lookup_assign_key; assumption.
Qed.

(** The partial update of the specification, on the sample store: the price
    of watch 2 becomes 4000 and its [updated_at] the current timestamp; the
    rest of the row and watch 1 stay as they were. *)
Example update_price_of_one_watch :
  exists st',
    update (H := Sqlite equality_predicate) sample_store
      "watches" [("price", VInt 4000)] "id = ?" [VInt 2] = (Ok true, st') /\
    lookup "watches" (tables st') =
      Some (mkTable watches_columns
              [watch 1 "Rolex" "Submariner Date" "116610LN" 2019 12500;
               set_column "updated_at" (VText "2024-06-01 12:00:00")
                 (watch 2 "Omega" "Speedmaster Professional"
                        "311.30.42.30.01.005" 2020 4000)]) /\
    lookup "inquiries" (tables st') = lookup "inquiries" (tables sample_store).
Proof. eexists. repeat split. Qed.

(** C7, failing inputs.  [update] appends [, updated_at = CURRENT_TIMESTAMP]
    to every statement.  The [inquiries] table that [initializeDatabase]
    creates has no such column: the statement built for it is rejected and
    [update] throws, although the table, the key and the where-clause are
    valid and one row matches.  For an empty partial row the text after [SET]
    starts with a comma and the statement is rejected as well. *)
Theorem update_throws_without_updated_at_column :
  (forall (DB : Type) (H : Database DB) (db : DB),
     update db "inquiries" [("status", VText "contacted")] "id = ?" [VInt 1] =
     match stmt_run db
             "UPDATE inquiries SET status = ?, updated_at = CURRENT_TIMESTAMP WHERE id = ?"
             [VText "contacted"; VInt 1] with
     | (Ok changes, db') => (Ok (0 <? changes)%Z, db')
     | (Throw e, db') => (Throw e, db')
     end) /\
  lookup "inquiries" (tables sample_store)
    = Some (mkTable inquiries_columns [inquiry 1 2 "Ann" "ann@example.com"]) /\
  existsb (String.eqb "updated_at") inquiries_columns = false /\
  update (H := Sqlite equality_predicate) sample_store
    "inquiries" [("status", VText "contacted")] "id = ?" [VInt 1]
    = (Throw "no such column: updated_at", sample_store) /\
  (forall (DB : Type) (H : Database DB) (db : DB),
     update db "watches" [] "id = ?" [VInt 2] =
     match stmt_run db
             "UPDATE watches SET , updated_at = CURRENT_TIMESTAMP WHERE id = ?"
             [VInt 2] with
     | (Ok changes, db') => (Ok (0 <? changes)%Z, db')
     | (Throw e, db') => (Throw e, db')
     end) /\
  update (H := Sqlite equality_predicate) sample_store
    "watches" [] "id = ?" [VInt 2]
    = (Throw "syntax error", sample_store).
Proof. repeat split. Qed.

End DALProps.

(** * Properties of the phone number helpers *)

Module PhoneProps.
Import Phone.
Local Open Scope string_scope.

Lemma all_digits_remove_non_digits s : all_digits (remove_non_digits s) = true.
Proof.
  induction s as [|c s IH]; cbn [remove_non_digits]; [reflexivity|].
  destruct (is_digit c) eqn:Hc; [|exact IH].
  cbn [all_digits]. rewrite Hc, IH. reflexivity.
Qed.

Lemma remove_non_digits_of_digits s :
  all_digits s = true -> remove_non_digits s = s.
Proof.
  induction s as [|c s IH]; cbn [all_digits remove_non_digits]; [reflexivity|].
  intros H. apply andb_prop in H. destruct H as [Hc Hs].
  rewrite Hc, IH by exact Hs. reflexivity.
Qed.

Lemma length_remove_non_digits_of_digits s :
  all_digits s = true ->
  String.length (remove_non_digits s) = String.length s.
Proof. intros H. rewrite remove_non_digits_of_digits by exact H. reflexivity. Qed.

(** A string of digits does not start with a plus sign. *)
Lemma digits_do_not_start_with_plus d :
  all_digits d = true -> startsWith d "+" = false.
Proof.
  destruct d as [|c d]; [reflexivity|].
  cbn [all_digits]. intros H. apply andb_prop in H. destruct H as [Hc _].
  unfold startsWith. cbn [String.prefix].
  destruct (Ascii.ascii_dec "+" c) as [<-|_]; [discriminate Hc|reflexivity].
Qed.

(** What [normalizePhoneNumber] returns, in one equation: a plus sign, then a
    1 when the input has ten digits of which the first is not 1, then the
    digits of the input. *)
Lemma normalizePhoneNumber_eq phone :
  normalizePhoneNumber phone =
  let d := remove_non_digits phone in
  "+" ++ (if negb (startsWith d "1") && (String.length d =? 10)%nat
          then "1" ++ d else d).
Proof.
  unfold normalizePhoneNumber. cbn zeta.
  set (d := remove_non_digits phone).
  assert (Hd : all_digits d = true) by apply all_digits_remove_non_digits.
  destruct (negb (startsWith d "1") && (String.length d =? 10)%nat).
  - reflexivity.
  - rewrite digits_do_not_start_with_plus by exact Hd. reflexivity.
Qed.

Lemma normalize_cases phone :
  exists d,
    normalizePhoneNumber phone = "+" ++ d /\
    all_digits d = true /\
    (d = remove_non_digits phone \/ d = "1" ++ remove_non_digits phone).
Proof.
  rewrite normalizePhoneNumber_eq. cbn zeta.
  pose proof (all_digits_remove_non_digits phone) as Hd.
  destruct (negb (startsWith (remove_non_digits phone) "1")
            && (String.length (remove_non_digits phone) =? 10)%nat).
  - exists ("1" ++ remove_non_digits phone). repeat split; auto.
  - exists (remove_non_digits phone). repeat split; auto.
Qed.


(** X2: normalising twice is normalising once, so a number is valid exactly
    when its normal form is. *)
Theorem normalizePhoneNumber_idempotent phone :
  normalizePhoneNumber (normalizePhoneNumber phone) = normalizePhoneNumber phone /\
  validatePhoneNumber (normalizePhoneNumber phone) = validatePhoneNumber phone.
Proof.
  assert (Hidem : normalizePhoneNumber (normalizePhoneNumber phone)
                  = normalizePhoneNumber phone).
  { destruct (normalize_cases phone) as (d & Hn & Hd & Hcase).
    rewrite Hn at 1. rewrite (normalizePhoneNumber_eq ("+" ++ d)). cbn zeta.
    assert (Hplus : remove_non_digits ("+" ++ d) = d)
      by (cbn; apply remove_non_digits_of_digits; exact Hd).
    rewrite Hplus, Hn.
    rewrite normalizePhoneNumber_eq in Hn. cbn zeta in Hn.
    injection Hn as Hn.
    destruct (negb (startsWith (remove_non_digits phone) "1")
              && (String.length (remove_non_digits phone) =? 10)%nat) eqn:Hc.
    - subst d. unfold startsWith. cbn [String.prefix append].
      destruct (Ascii.ascii_dec "1" "1") as [_|Hne]; [|congruence].
      destruct (remove_non_digits phone); reflexivity.
    - subst d. rewrite Hc. reflexivity. }
  split; [exact Hidem|].
  unfold validatePhoneNumber. rewrite Hidem. reflexivity.
Qed.

(** X3: a number is valid exactly when, once every character that is not a
    digit is dropped, it has eleven digits of which the first is 1, or ten
    digits of which the first is not 1. *)
Theorem validatePhoneNumber_iff phone :
  let d := remove_non_digits phone in
  validatePhoneNumber phone = true <->
  (String.length d = 11 /\ startsWith d "1" = true) \/
  (String.length d = 10 /\ startsWith d "1" = false).
Proof.
  cbn zeta. unfold validatePhoneNumber. rewrite normalizePhoneNumber_eq. cbn zeta.
  pose proof (all_digits_remove_non_digits phone) as Hd.
  set (d := remove_non_digits phone) in *.
  destruct (startsWith d "1") eqn:H1; cbn [negb andb].
  - (* the digits start with 1: nothing is added *)
    destruct d as [|c d']; [discriminate H1|].
    unfold startsWith in H1. cbn [String.prefix] in H1.
    destruct (Ascii.ascii_dec "1" c) as [<-|]; [|discriminate H1].
    cbn [append test_plus_1_and_10_digits String.length].
    cbn [all_digits] in Hd. apply andb_prop in Hd. destruct Hd as [_ Hd'].
    rewrite Hd', andb_true_r. rewrite Nat.eqb_eq.
    split; [intros H; left; split; [lia|reflexivity]|].
    intros [[H _]|[_ H]]; [lia|discriminate H].
  - destruct (Nat.eqb_spec (String.length d) 10) as [Hlen|Hlen].
    + cbn [append test_plus_1_and_10_digits].
      rewrite Hlen, Hd. cbn. split; [intros _; right; split; auto|reflexivity].
    + split.
      * intros Hvalid. exfalso.
        destruct d as [|c d']; [discriminate Hvalid|].
        cbn [append test_plus_1_and_10_digits] in Hvalid.
        unfold startsWith in H1. cbn [String.prefix] in H1.
        destruct c as [b0 b1 b2 b3 b4 b5 b6 b7].
        destruct b0, b1, b2, b3, b4, b5, b6, b7;
          try discriminate Hvalid; cbn in H1; destruct d'; discriminate H1.
      * intros [[_ H]|[H _]]; [discriminate H|contradiction].
Qed.

End PhoneProps.

(** * Bounds on the retry wrapper, whatever the provider does *)

Module RetryBounds.
Import Retry Measures RetryProps.
Local Open Scope Z_scope.



Section WithProvider.

Variable outcome :
  nat -> string -> string -> option string -> Result WhatsAppResponse.
Variables (to message : string) (mediaUrl : option string).




End WithProvider.

End RetryBounds.

(** * The time a drain spends waiting *)

Module DrainTime.
Import ONQ Measures ONQProps.
Local Open Scope Z_scope.

Lemma delays_loop_events tr : delays (loop_events tr) = delays tr.
Proof.
  induction tr as [|e tr IH]; cbn [loop_events delays]; [reflexivity|].
  destruct e; cbn [delays]; rewrite ?IH; reflexivity.
Qed.

Lemma delays_iterations js :
  delays (flat_map iteration js)
  = map (fun _ => MESSAGE_RATE_LIMIT) (filter fulfils js).
Proof.
  induction js as [|j js IH]; [reflexivity|].
  cbn [flat_map filter]. unfold iteration at 1, fulfils at 1.
  destruct (job_outcome j); cbn [app delays map]; rewrite IH; reflexivity.
Qed.

Lemma sum_constant (c : Z) {A} (l : list A) :
  sum (map (fun _ => c) l) = c * Z.of_nat (length l).
Proof.
  unfold sum. induction l as [|a l IH]; cbn [map fold_right length]; lia.
Qed.

(** X5: the call that starts a drain settles after the loop has waited 1000 ms
    once for every job that fulfilled, and not at all for the jobs that
    rejected: the waits add up to 1000 ms times the number of jobs run that
    fulfilled. *)
Theorem drain_waits_once_per_fulfilled_job fuel j q ps tr0 :
  (S (length q) + length (concat ps) < fuel)%nat ->
  exists ps' tr,
    queueWhatsAppMessage fuel j (mkWorld q false ps tr0) =
      Some (Ok tt, mkWorld [] false ps' (tr0 ++ tr)) /\
    sum (delays tr) = 1000 * Z.of_nat (length (filter fulfils (executed tr))).
Proof.
  intros Hfuel.
  destruct (queueWhatsAppMessage_when_idle j q ps tr0 Hfuel)
    as (c & ps' & tr & Hrun & _ & Hev & _).
  exists ps', (EvPush j :: tr). split; [exact Hrun|].
  cbn [delays executed].
  rewrite <- delays_loop_events, <- executed_loop_events, Hev.
  rewrite delays_iterations, executed_iterations, sum_constant. reflexivity.
Qed.

Lemma drain_waits_once_per_fulfilled_job_witness :
  exists ps' tr,
    queueWhatsAppMessage 4 (mkJob 1 Resolves)
      (mkWorld [] false [[mkJob 2 (Rejects "boom"); mkJob 3 Resolves]] []) =
      Some (Ok tt, mkWorld [] false ps' ([] ++ tr)) /\
    sum (delays tr) = 1000 * Z.of_nat (length (filter fulfils (executed tr))).
Proof.
  apply (@drain_waits_once_per_fulfilled_job 4 (mkJob 1 Resolves) []
           [[mkJob 2 (Rejects "boom"); mkJob 3 Resolves]] []).
  cbn. lia.
Defined.

End DrainTime.

(** * Properties of bulk messaging *)

Module BulkProps.
Import ONQ Bulk ONQProps.

Section WithSend.

Variable replace : string -> string -> string -> string.
Variable send : nat -> string -> string -> Result Retry.WhatsAppResponse.
Variable defaultMessage : string.

Lemma skipn_length_app {A} (l1 l2 : list A) : skipn (length l1) (l1 ++ l2) = l2.
Proof. induction l1 as [|a l1 IH]; [reflexivity|exact IH]. Qed.

Lemma nth_error_middle {A} (l1 : list A) a l2 :
  nth_error (l1 ++ a :: l2) (length l1) = Some a.
Proof. induction l1 as [|b l1 IH]; [reflexivity|exact IH]. Qed.

Lemma pushed_by_success i recipient :
  Forall (fun e => success e = true) (pushed_by replace send defaultMessage i recipient).
Proof.
  unfold pushed_by.
  destruct (send i (phone recipient) (message_of replace defaultMessage recipient));
    repeat constructor.
Qed.

Lemma successes_of_success todo :
  forall i, Forall (fun e => success e = true)
                   (successes_of replace send defaultMessage i todo).
Proof.
  induction todo as [|recipient todo IH]; intros i; cbn [successes_of];
    [constructor|].
  apply Forall_app. split; [apply pushed_by_success|apply IH].
Qed.

(** On the idle queue, with no other producer, each call of the loop drains
    the job it has just pushed. *)
Lemma for_recipients_on_idle_queue fuel all :
  (2 <= fuel)%nat ->
  forall todo done results tr0,
    all = done ++ todo ->
    exists tr,
      for_recipients replace send fuel all defaultMessage (length done) todo
                     results (mkWorld [] false [] tr0)
      = Some (results ++ successes_of replace send defaultMessage (length done) todo,
              mkWorld [] false [] (tr0 ++ tr)) /\
      executed tr = jobs_of replace send defaultMessage (length done) todo.
Proof.
  intros Hfuel.
  induction todo as [|recipient todo IH]; intros done results tr0 Hall.
  - exists []. cbn. rewrite !app_nil_r. auto.
  - cbn [for_recipients successes_of jobs_of].
    set (j := job_of replace send defaultMessage (length done) recipient).
    assert (Hfuel' : (S (length (@nil Job)) + length (concat (@nil (list Job))) < fuel)%nat)
      by (cbn; lia).
    destruct (queueWhatsAppMessage_when_idle j [] [] tr0 Hfuel')
      as (c & ps' & tr & Hrun & Hps & Hev & _).
    symmetry in Hps. apply app_eq_nil in Hps. destruct Hps as [-> ->].
    cbn [concat app flat_map] in Hev. rewrite app_nil_r in Hev.
    rewrite Hrun. cbn [trace].
    rewrite skipn_length_app.
    assert (Hexec : executed (EvPush j :: tr) = [j]).
    { cbn [executed]. rewrite <- executed_loop_events, Hev.
      unfold iteration. destruct (job_outcome j); reflexivity. }
    unfold pushed_during. rewrite Hexec. cbn [flat_map job_id j job_of].
    rewrite Hall, nth_error_middle, app_nil_r.
    destruct (IH (done ++ [recipient])
                 (results ++ pushed_by replace send defaultMessage (length done) recipient)
                 (tr0 ++ EvPush j :: tr))
      as (tr' & Hrest & Hexec').
    { rewrite <- app_assoc. exact Hall. }
    rewrite length_app in Hrest, Hexec'. cbn [length] in Hrest, Hexec'.
    rewrite Nat.add_1_r in Hrest, Hexec'.
    exists ((EvPush j :: tr) ++ tr').
    rewrite <- Hall, Hrest, <- !app_assoc. split; [reflexivity|].
    rewrite executed_app, Hexec, Hexec'. reflexivity.
Qed.

(** X6: called on the idle queue, with no other producer, the function sends
    to every recipient in turn and returns one success entry for each
    recipient whose send fulfilled, in order.  A recipient whose send failed
    gets no entry at all: the queue has caught the error, so the [catch]
    that would push a failure entry is never reached. *)
Theorem bulk_results_hold_successes_only fuel recipients tr0 :
  (2 <= fuel)%nat ->
  exists tr,
    sendBulkWhatsAppMessages replace send fuel recipients defaultMessage
                             (mkWorld [] false [] tr0)
    = Some (successes_of replace send defaultMessage 0 recipients,
            mkWorld [] false [] (tr0 ++ tr)) /\
    executed tr = jobs_of replace send defaultMessage 0 recipients /\
    Forall (fun e => success e = true)
           (successes_of replace send defaultMessage 0 recipients).
Proof.
  intros Hfuel. unfold sendBulkWhatsAppMessages.
  destruct (for_recipients_on_idle_queue Hfuel recipients [] [] tr0 eq_refl)
    as (tr & Hrun & Hexec).
  exists tr. split; [exact Hrun|]. split; [exact Hexec|].
  apply successes_of_success.
Qed.



End WithSend.

Lemma bulk_results_hold_successes_only_witness :
  exists tr,
    sendBulkWhatsAppMessages (fun text _ _ => text)
      (fun i _ _ => match i with
                    | 1 => Throw "HTTP 500"%string
                    | _ => Ok (Retry.mkResponse "SM1" "sent" "t" "twilio")
                    end)
      2 [mkRecipient "+15550100" "Ann" None;
         mkRecipient "+15550101" "Bob" None;
         mkRecipient "+15550102" "Cy" (Some "Hello Cy"%string)]
      "Hello" (mkWorld [] false [] [])
    = Some ([mkEntry "+15550100" true (Some "SM1"%string) None;
             mkEntry "+15550102" true (Some "SM1"%string) None],
            mkWorld [] false [] ([] ++ tr)) /\
    executed tr
    = [mkJob 0 Resolves; mkJob 1 (Rejects "HTTP 500"); mkJob 2 Resolves] /\
    Forall (fun e => success e = true)
           [mkEntry "+15550100" true (Some "SM1"%string) None;
            mkEntry "+15550102" true (Some "SM1"%string) None].
Proof.
  apply (@bulk_results_hold_successes_only (fun text _ _ => text)
           (fun i _ _ => match i with
                         | 1 => Throw "HTTP 500"%string
                         | _ => Ok (Retry.mkResponse "SM1" "sent" "t" "twilio")
                         end)
           "Hello"%string 2
           [mkRecipient "+15550100" "Ann" None;
            mkRecipient "+15550101" "Bob" None;
            mkRecipient "+15550102" "Cy" (Some "Hello Cy"%string)] []).
  apply le_n.
Defined.

End BulkProps.

(** * Properties of the configuration check and of the webhook verification *)

Module ConfigProps.
Import Config.
Local Open Scope string_scope.

Section WithEnv.

Variable env : string -> option string.

Lemma env_or_not_empty key fallback :
  fallback <> "" -> env_or env key fallback <> "".
Proof.
  intros Hfb. unfold env_or.
  destruct (env key) as [[|c s]|]; [exact Hfb|discriminate|exact Hfb].
Qed.

Lemma check_eq_nil value issue issues :
  check value issue issues = [] -> issues = [] /\ value <> "".
Proof.
  unfold check. destruct value; cbn.
  - intros H. apply app_eq_nil in H. destruct H. discriminate.
  - intros ->. split; [reflexivity|discriminate].
Qed.

Lemma check_of_set value issue issues :
  value <> "" -> check value issue issues = issues.
Proof. unfold check. destruct value; [congruence|reflexivity]. Qed.

Lemma length_eqb_0 {A} (l : list A) : (length l =? 0)%nat = true <-> l = [].
Proof. destruct l; cbn; split; intros; congruence. Qed.

(** X8: the configuration is reported valid exactly when the credentials of
    the selected provider are set: the account SID and the auth token when the
    provider is "twilio" (which it is when the variable is unset or empty),
    the access token and the phone number id when it is "meta".  For every
    other provider value it is valid with nothing set.  The business number
    and the Twilio WhatsApp number fall back to defaults and are never
    reported. *)
Theorem validateWhatsAppConfig_iff :
  (valid (validateWhatsAppConfig env) = true <->
   (WHATSAPP_PROVIDER env = "twilio" ->
    TWILIO_ACCOUNT_SID env <> "" /\ TWILIO_AUTH_TOKEN env <> "") /\
   (WHATSAPP_PROVIDER env = "meta" ->
    META_ACCESS_TOKEN env <> "" /\ META_PHONE_NUMBER_ID env <> "")) /\
  ~ In "WHATSAPP_BUSINESS_NUMBER not configured" (issues (validateWhatsAppConfig env)) /\
  ~ In "TWILIO_WHATSAPP_NUMBER not configured" (issues (validateWhatsAppConfig env)).
Proof.
  assert (Hbn : WHATSAPP_BUSINESS_NUMBER env <> "")
    by (apply env_or_not_empty; discriminate).
  assert (Htn : TWILIO_WHATSAPP_NUMBER env <> "")
    by (apply env_or_not_empty; discriminate).
  unfold validateWhatsAppConfig. cbn zeta. cbn [valid issues].
  rewrite (check_of_set _ _ Hbn).
  destruct (String.eqb_spec (WHATSAPP_PROVIDER env) "twilio") as [Htw|Htw].
  - rewrite (check_of_set _ _ Htn). rewrite length_eqb_0.
    split; [|split].
    + split.
      * intros Hnil. split; [|rewrite Htw; discriminate].
        intros _.
        apply check_eq_nil in Hnil. destruct Hnil as [Hnil Htok].
        apply check_eq_nil in Hnil. destruct Hnil as [_ Hsid]. auto.
      * intros [Hcred _]. destruct (Hcred Htw) as [Hsid Htok].
        rewrite (check_of_set _ _ Hsid), (check_of_set _ _ Htok). reflexivity.
    + unfold check.
      destruct (is_empty (TWILIO_ACCOUNT_SID env)),
               (is_empty (TWILIO_AUTH_TOKEN env)); cbn;
        intuition discriminate.
    + unfold check.
      destruct (is_empty (TWILIO_ACCOUNT_SID env)),
               (is_empty (TWILIO_AUTH_TOKEN env)); cbn;
        intuition discriminate.
  - destruct (String.eqb_spec (WHATSAPP_PROVIDER env) "meta") as [Hme|Hme].
    + rewrite length_eqb_0. split; [|split].
      * split.
        -- intros Hnil. split; [intros; contradiction|]. intros _.
           apply check_eq_nil in Hnil. destruct Hnil as [Hnil Hid].
           apply check_eq_nil in Hnil. destruct Hnil as [_ Hat]. auto.
        -- intros [_ Hcred]. destruct (Hcred Hme) as [Hat Hid].
           rewrite (check_of_set _ _ Hat), (check_of_set _ _ Hid). reflexivity.
      * unfold check.
        destruct (is_empty (META_ACCESS_TOKEN env)),
                 (is_empty (META_PHONE_NUMBER_ID env)); cbn;
          intuition discriminate.
      * unfold check.
        destruct (is_empty (META_ACCESS_TOKEN env)),
                 (is_empty (META_PHONE_NUMBER_ID env)); cbn;
          intuition discriminate.
    + cbn. split; [|split]; [|tauto|tauto].
      split; [intros _; split; intros; contradiction|reflexivity].
Qed.

(** X9: the webhook is verified, and the challenge echoed, only for the mode
    "subscribe" and a token equal to the configured one; the configured token
    is never empty (an unset or empty variable gives the built-in default), so
    a request with an empty token is refused in every environment. *)
Theorem verifyWhatsAppWebhook_sound mode token challenge :
  (forall answer,
     fst (verifyWhatsAppWebhook env mode token challenge) = Some answer ->
     answer = challenge /\ mode = "subscribe" /\ token <> "" /\
     token = env_or env "WHATSAPP_VERIFY_TOKEN" "prestige_timepieces_verify_token") /\
  fst (verifyWhatsAppWebhook env mode "" challenge) = None /\
  (env "WHATSAPP_VERIFY_TOKEN" = None \/ env "WHATSAPP_VERIFY_TOKEN" = Some "" ->
   fst (verifyWhatsAppWebhook env "subscribe"
                              "prestige_timepieces_verify_token" challenge)
   = Some challenge).
Proof.
  assert (Hne : env_or env "WHATSAPP_VERIFY_TOKEN" "prestige_timepieces_verify_token" <> "")
    by (apply env_or_not_empty; discriminate).
  unfold verifyWhatsAppWebhook. cbn zeta. split; [|split].
  - intros answer.
    destruct (String.eqb_spec mode "subscribe") as [Hmode|_]; [|discriminate].
    destruct (String.eqb_spec token
                (env_or env "WHATSAPP_VERIFY_TOKEN" "prestige_timepieces_verify_token"))
      as [Htoken|_]; [|discriminate].
    cbn. intros [= <-]. repeat split; auto. congruence.
  - destruct (String.eqb_spec ""
                (env_or env "WHATSAPP_VERIFY_TOKEN" "prestige_timepieces_verify_token"))
      as [Heq|_]; [congruence|].
    rewrite andb_false_r. reflexivity.
  - intros Hunset. unfold env_or.
    destruct Hunset as [-> | ->]; reflexivity.
Qed.

End WithEnv.

End ConfigProps.

(** * How the operations of the data-access helper compose *)

Module DALCompose.
Import DAL DALProps.
Local Open Scope string_scope.

Lemma replace_table_same k (t : Table) l :
  lookup k l = Some t -> replace_table k t l = l.
Proof.
  induction l as [|[k0 t0] l IH]; cbn [lookup replace_table]; [reflexivity|].
  destruct (k0 =? k); [intros [= ->]; reflexivity|].
  intros H. rewrite IH by exact H. reflexivity.
Qed.

Lemma existsb_false_iff {A} (p : A -> bool) l :
  existsb p l = false <-> forall x, In x l -> p x = false.
Proof.
  induction l as [|a l IH]; cbn; [tauto|].
  rewrite orb_false_iff, IH. split.
  - intros [Ha Hl] x [<-|Hin]; auto.
  - intros H. split; auto.
Qed.


Section Store.

Variable predicate : string -> list Value -> option (Row -> bool).



(** X11: an update that matches no row returns false and leaves the store as
    it was: no column is written, not even the timestamp. *)
Theorem update_without_match_changes_nothing
  (st : Store) (table : string) (data : Row) (where_ : string)
  (whereParams : list Value) (t : Table) (p : Row -> bool) :
  is_ident table = true ->
  data <> [] ->
  Forall (fun k => is_ident k = true) (keys data) ->
  (forall k, In k (keys data) -> In k (columns t)) ->
  In "updated_at" (columns t) ->
  lookup table (tables st) = Some t ->
  predicate where_ whereParams = Some p ->
  (forall r, In r (rows t) -> p r = false) ->
  update (H := Sqlite predicate) st table data where_ whereParams = (Ok false, st).
Proof.
  intros Hid Hne Hids Hcols Hstamp Htable Hpred Hnone.
  destruct (@update_touches_only_supplied_columns predicate st table data where_
              whereParams t p Hid Hne Hids Hcols Hstamp Htable Hpred)
    as (rows' & Hupdate & _ & _ & Hrows).
  cbn zeta in Hupdate. rewrite Hupdate.
  rewrite (proj2 (existsb_false_iff p (rows t)) Hnone).
  assert (Hsame : rows' = rows t).
  { clear Hupdate. induction Hrows as [|r r' rs rs' Hr _ IH]; [reflexivity|].
    rewrite (Hnone r (or_introl eq_refl)) in Hr. subst r'.
    rewrite IH; [reflexivity|]. intros x Hx. apply Hnone. right. exact Hx. }
  rewrite Hsame.
  replace (mkTable (columns t) (rows t)) with t by (destruct t; reflexivity).
  rewrite replace_table_same by exact Htable.
  destruct st; reflexivity.
Qed.



End Store.






Lemma update_without_match_changes_nothing_witness :
  update (H := Sqlite equality_predicate) sample_store
    "watches" [("price", VInt 4000)] "id = ?" [VInt 9]
  = (Ok false, sample_store).
Proof.
  apply (@update_without_match_changes_nothing equality_predicate sample_store
           "watches" [("price", VInt 4000)] "id = ?" [VInt 9]
           (mkTable watches_columns
              [watch 1 "Rolex" "Submariner Date" "116610LN" 2019 12500;
               watch 2 "Omega" "Speedmaster Professional"
                     "311.30.42.30.01.005" 2020 4200])
           (fun r => match lookup "id" r with
                     | Some x => value_eqb x (VInt 9)
                     | None => false
                     end)).
  - reflexivity.
  - discriminate.
  - repeat constructor.
  - cbn. intros k [<-|[]]. right. right. right. right. right. right. left.
    reflexivity.
  - cbn. tauto.
  - reflexivity.
  - reflexivity.
  - cbn. intros r [<-|[<-|[]]]; reflexivity.
Defined.



End DALCompose.

(** * Properties of the authentication middleware *)

Module AuthProps.
Import DAL Auth.
Local Open Scope string_scope.

Lemma substring_all s : substring 0 (String.length s) s = s.
Proof. induction s as [|c s IH]; cbn; congruence. Qed.

Lemma token_of_bearer token :
  substring 7 (String.length ("Bearer " ++ token) - 7) ("Bearer " ++ token) = token.
Proof. cbn. rewrite Nat.sub_0_r. apply substring_all. Qed.

(** A branch that answers without calling [next]. *)
Ltac rejected :=
  cbn [next_calls status respond invalid_token authentication_error];
  split; [lia|split; [intros Hc; discriminate Hc|intros _; auto]].

Section Middleware.

Context {DB : Type} `{Database DB}.
Variable verify : string -> Result Payload.
Variable now : Z.
Variable next : UserInfo -> Result unit.

(** X15: the middleware calls [next] at most once, and only after it has set
    [ctx.state.user] from a row of [admin_users] that [selectOne] returned:
    the row of the user "admin", or the row whose id is the subject of a token
    that [verify] accepted and that has not expired.  When it does not call
    [next] it answers 401 or 500. *)
Theorem next_runs_only_for_a_stored_user (db : DB) (authHeader : option string) :
  let ctx := authMiddleware verify now next db authHeader in
  (next_calls ctx <= 1)%nat /\
  (next_calls ctx = 1%nat ->
   exists row,
     user ctx = Some (user_of row) /\
     (selectOne db "admin_users" "username = ?" [VText "admin"] = Ok (Some row) \/
      exists token payload,
        verify token = Ok payload /\ expired (exp payload) now = false /\
        selectOne db "admin_users" "id = ?" [sub payload] = Ok (Some row))) /\
  (next_calls ctx = 0%nat -> status ctx = Some 401%Z \/ status ctx = Some 500%Z).
Proof.
  cbn zeta. unfold authMiddleware.
  destruct authHeader as [[|c h]|]; [rejected| |rejected].
  destruct (negb (String.prefix "Bearer " (String c h)))%bool; [rejected|].
  destruct (substring 7 (String.length (String c h) - 7) (String c h) =? "admin-token").
  - destruct (selectOne db "admin_users" "username = ?" [VText "admin"])
      as [[row|]|e] eqn:Hrow; [|rejected|rejected].
    destruct (next (user_of row));
      cbn [next_calls status user respond authentication_error];
      (split; [lia|split; [|intros Hc; discriminate Hc]]);
      intros _; exists row; auto.
  - destruct (verify (substring 7 (String.length (String c h) - 7) (String c h)))
      as [payload|e] eqn:Hverify; [|rejected].
    destruct (expired (exp payload) now) eqn:Hexp; [rejected|].
    destruct (selectOne db "admin_users" "id = ?" [sub payload])
      as [[row|]|e] eqn:Hrow; [|rejected|rejected].
    destruct (next (user_of row));
      cbn [next_calls status user respond invalid_token];
      (split; [lia|split; [|intros Hc; discriminate Hc]]);
      intros _; exists row; (split; [reflexivity|]); right; eauto.
Qed.

(** X16: the literal token "admin-token" is accepted without any verification:
    when the table holds a user named "admin", the request passes as that
    user, whatever [verify] would answer and whatever the time. *)
Theorem admin_token_passes_without_verification (db : DB) (row : Row) :
  selectOne db "admin_users" "username = ?" [VText "admin"] = Ok (Some row) ->
  next (user_of row) = Ok tt ->
  authMiddleware verify now next db (Some "Bearer admin-token")
  = mkCtx None None (Some (user_of row)) None 1.
Proof.
  intros Hrow Hnext. unfold authMiddleware. cbn. rewrite Hrow, Hnext. reflexivity.
Qed.

(** X17: a token is refused as expired exactly when its [exp] claim is present,
    not zero and smaller than the current time; a token without [exp], or
    with [exp] equal to the current time, goes on to the user lookup. *)
Theorem token_expiry (db : DB) (token : string) (payload : Payload) :
  token <> "admin-token" ->
  verify token = Ok payload ->
  ((exists e, exp payload = Some e /\ e <> 0%Z /\ (e < now)%Z) ->
   authMiddleware verify now next db (Some ("Bearer " ++ token))
   = respond 401 "Token has expired. Please login again." None None None 0) /\
  (exp payload = None \/ exp payload = Some 0%Z \/
   (exists e, exp payload = Some e /\ (now <= e)%Z) ->
   forall row,
     selectOne db "admin_users" "id = ?" [sub payload] = Ok (Some row) ->
     next (user_of row) = Ok tt ->
     authMiddleware verify now next db (Some ("Bearer " ++ token))
     = mkCtx None None (Some (user_of row)) (Some payload) 1).
Proof.
  intros Htoken Hverify.
  assert (Hstep : authMiddleware verify now next db (Some ("Bearer " ++ token))
                  = if expired (exp payload) now
                    then respond 401 "Token has expired. Please login again."
                                 None None None 0
                    else
                      match selectOne db "admin_users" "id = ?" [sub payload] with
                      | Throw e => invalid_token e None None 0
                      | Ok None =>
                          respond 401 "User not found. Please login again."
                                  None None None 0
                      | Ok (Some row) =>
                          match next (user_of row) with
                          | Ok _ => mkCtx None None (Some (user_of row)) (Some payload) 1
                          | Throw e =>
                              invalid_token e (Some (user_of row)) (Some payload) 1
                          end
                      end).
  { unfold authMiddleware.
    change ("Bearer " ++ token) with (String "B" ("earer " ++ token)).
    cbv iota.
    change (String "B" ("earer " ++ token)) with ("Bearer " ++ token).
    replace (negb (String.prefix "Bearer " ("Bearer " ++ token))) with false
      by (cbn; destruct token; reflexivity).
    rewrite token_of_bearer.
    destruct (String.eqb_spec token "admin-token"); [contradiction|].
    rewrite Hverify. reflexivity. }
  rewrite Hstep. split.
  - intros (e & He & Hnz & Hlt). unfold expired. rewrite He.
    destruct (Z.eqb_spec e 0); [contradiction|].
    destruct (Z.ltb_spec e now); [reflexivity|lia].
  - intros Hcase row Hrow Hnext.
    assert (Hexp : expired (exp payload) now = false).
    { unfold expired. destruct Hcase as [-> | [-> | (e & -> & Hle)]];
        [reflexivity|reflexivity|].
      destruct (Z.ltb_spec e now); [lia|]. apply andb_false_r. }
    rewrite Hexp, Hrow, Hnext. reflexivity.
Qed.

(** X18: an exception thrown by the handlers behind the middleware is answered
    differently on the two paths.  Behind a verified token it is caught by
    the handler for token errors and answered 401 "Invalid token"; behind
    "admin-token" it is answered 500 "Authentication error". *)
Theorem downstream_error_is_reported_as_invalid_token
  (db : DB) (token : string) (payload : Payload) (row admin : Row) (e : string) :
  token <> "admin-token" ->
  verify token = Ok payload ->
  expired (exp payload) now = false ->
  selectOne db "admin_users" "id = ?" [sub payload] = Ok (Some row) ->
  next (user_of row) = Throw e ->
  selectOne db "admin_users" "username = ?" [VText "admin"] = Ok (Some admin) ->
  next (user_of admin) = Throw e ->
  authMiddleware verify now next db (Some ("Bearer " ++ token))
  = mkCtx (Some 401%Z)
          (Some (mkBody false "Invalid token. Please login again."
                        (Some (message_or e "JWT verification failed"))))
          (Some (user_of row)) (Some payload) 1 /\
  authMiddleware verify now next db (Some "Bearer admin-token")
  = mkCtx (Some 500%Z)
          (Some (mkBody false "Authentication error"
                        (Some (message_or e "Unknown error"))))
          (Some (user_of admin)) None 1.
Proof.
  intros Htoken Hverify Hexp Hrow Hnext Hadmin Hnext'. split.
  - unfold authMiddleware.
    change ("Bearer " ++ token) with (String "B" ("earer " ++ token)).
    cbv iota.
    change (String "B" ("earer " ++ token)) with ("Bearer " ++ token).
    replace (negb (String.prefix "Bearer " ("Bearer " ++ token))) with false
      by (cbn; destruct token; reflexivity).
    rewrite token_of_bearer.
    destruct (String.eqb_spec token "admin-token"); [contradiction|].
    rewrite Hverify, Hexp, Hrow, Hnext. reflexivity.
  - unfold authMiddleware. cbn. rewrite Hadmin, Hnext'. reflexivity.
Qed.

End Middleware.

Lemma next_runs_only_for_a_stored_user_witness :
  let ctx := authMiddleware (H := Sqlite equality_predicate)
               (fun _ => Throw "bad signature") 0 (fun _ => Ok tt)
               Login.admin_store (Some "Bearer admin-token") in
  (next_calls ctx <= 1)%nat /\
  (next_calls ctx = 1%nat ->
   exists row,
     user ctx = Some (user_of row) /\
     (selectOne (H := Sqlite equality_predicate) Login.admin_store
        "admin_users" "username = ?" [VText "admin"] = Ok (Some row) \/
      exists token payload,
        (fun _ : string => @Throw Payload "bad signature") token = Ok payload /\
        expired (exp payload) 0 = false /\
        selectOne (H := Sqlite equality_predicate) Login.admin_store
          "admin_users" "id = ?" [sub payload] = Ok (Some row))) /\
  (next_calls ctx = 0%nat -> status ctx = Some 401%Z \/ status ctx = Some 500%Z).
Proof.
  exact (@next_runs_only_for_a_stored_user Store (Sqlite equality_predicate)
           (fun _ => Throw "bad signature") 0%Z (fun _ => Ok tt)
           Login.admin_store (Some "Bearer admin-token")).
Defined.

Lemma admin_token_passes_without_verification_witness :
  authMiddleware (H := Sqlite equality_predicate)
    (fun _ => Throw "bad signature") 0 (fun _ => Ok tt)
    Login.admin_store (Some "Bearer admin-token")
  = mkCtx None None (Some (user_of Login.admin_row)) None 1.
Proof.
  apply (@admin_token_passes_without_verification Store (Sqlite equality_predicate)
           (fun _ => Throw "bad signature") 0%Z (fun _ => Ok tt)
           Login.admin_store Login.admin_row); reflexivity.
Defined.

Lemma token_expiry_witness :
  authMiddleware (H := Sqlite equality_predicate)
    (fun _ => Ok (mkPayload (VInt 1) (Some 100%Z))) 200 (fun _ => Ok tt)
    Login.admin_store (Some "Bearer abc")
  = respond 401 "Token has expired. Please login again." None None None 0.
Proof.
  apply (proj1 (@token_expiry Store (Sqlite equality_predicate)
                  (fun _ => Ok (mkPayload (VInt 1) (Some 100%Z))) 200%Z
                  (fun _ => Ok tt) Login.admin_store "abc"
                  (mkPayload (VInt 1) (Some 100%Z))
                  ltac:(discriminate) eq_refl)).
  exists 100%Z. split; [reflexivity|split; [discriminate|lia]].
Defined.

Lemma downstream_error_is_reported_as_invalid_token_witness :
  authMiddleware (H := Sqlite equality_predicate)
    (fun _ => Ok (mkPayload (VInt 1) None)) 200 (fun _ => Throw "handler failed")
    Login.admin_store (Some "Bearer abc")
  = mkCtx (Some 401%Z)
          (Some (mkBody false "Invalid token. Please login again."
                        (Some "handler failed")))
          (Some (user_of Login.admin_row)) (Some (mkPayload (VInt 1) None)) 1 /\
  authMiddleware (H := Sqlite equality_predicate)
    (fun _ => Ok (mkPayload (VInt 1) None)) 200 (fun _ => Throw "handler failed")
    Login.admin_store (Some "Bearer admin-token")
  = mkCtx (Some 500%Z)
          (Some (mkBody false "Authentication error" (Some "handler failed")))
          (Some (user_of Login.admin_row)) None 1.
Proof.
  apply (@downstream_error_is_reported_as_invalid_token Store
           (Sqlite equality_predicate)
           (fun _ => Ok (mkPayload (VInt 1) None)) 200%Z
           (fun _ => Throw "handler failed")
           Login.admin_store "abc" (mkPayload (VInt 1) None)
           Login.admin_row Login.admin_row "handler failed");
    try reflexivity.
  discriminate.
Defined.

End AuthProps.

(** * Properties of the login route *)

Module LoginProps.
Import DAL Auth Login DALProps.
Local Open Scope string_scope.

Lemma unknown_column_without_stamp cols assignments e :
  ~ In "updated_at" cols ->
  exists c, unknown_column cols (assignments ++ [("updated_at", e)])%list = Some c.
Proof.
  intros Hnot. induction assignments as [|[c0 e0] rest IH];
    cbn [app unknown_column].
  - destruct (existsb (String.eqb "updated_at") cols) eqn:Hex; [|eauto].
    apply existsb_exists in Hex. destruct Hex as (x & Hin & Heq).
    apply String.eqb_eq in Heq. subst x. contradiction.
  - destruct (existsb (String.eqb c0) cols); [exact IH|eauto].
Qed.

(** On a table without an [updated_at] column every [update] throws and
    leaves the store as it was. *)
Lemma update_throws_without_stamp_column
  (predicate : string -> list Value -> option (Row -> bool))
  (st : Store) (table : string) (data : Row) (where_ : string)
  (whereParams : list Value) (t : Table) :
  is_ident table = true ->
  data <> [] ->
  Forall (fun k => is_ident k = true) (keys data) ->
  lookup table (tables st) = Some t ->
  ~ In "updated_at" (columns t) ->
  exists c,
    update (H := Sqlite predicate) st table data where_ whereParams
    = (Throw ("no such column: " ++ c), st) /\
    ((forall k, In k (keys data) -> In k (columns t)) -> c = "updated_at").
Proof.
  intros Hid Hne Hids Htable Hnot.
  destruct (@unknown_column_without_stamp (columns t)
              (map (fun k => (k, EParam)) (keys data)) ECurrentTimestamp Hnot)
    as (c & Hc).
  exists c. split.
  - unfold update. cbn [stmt_run Sqlite]. unfold sqlite_run.
    fold (set_clause (keys data)).
    rewrite parse_update_statement;
      [|assumption|destruct data; [congruence|discriminate]|assumption].
    unfold run_update. rewrite Htable, Hc. reflexivity.
  - intros Hcols. clear - Hc Hcols.
    induction (keys data) as [|k ks IH]; cbn [map app unknown_column] in Hc.
    + destruct (existsb (String.eqb "updated_at") (columns t)); congruence.
    + assert (Hk : existsb (String.eqb k) (columns t) = true).
      { apply existsb_exists. exists k. split; [apply Hcols; left; reflexivity|].
        apply String.eqb_refl. }
      rewrite Hk in Hc. apply IH; [exact Hc|].
      intros k' Hk'. apply Hcols. right. exact Hk'.
Qed.

Section Handler.

Variable predicate : string -> list Value -> option (Row -> bool).
Variable btoa : string -> Result string.
Variable now_iso : string.
Variable now : Z.
Variable create : UserInfo -> Z -> Z -> Result string.

(** X19: on a database whose [admin_users] table has no [updated_at] column,
    as [initializeDatabase] creates it, the login route never answers with a
    token and never changes the store.  With the name of a stored user and
    the password that matches its hash it answers 500 "Login failed": the
    update of [last_login] is rejected by the store. *)
Theorem login_fails_without_updated_at_column (st : Store) (t : Table)
  (body : Result Credentials) :
  lookup "admin_users" (tables st) = Some t ->
  ~ In "updated_at" (columns t) ->
  (exists code message details,
     login (H := Sqlite predicate) btoa now_iso now create st body
     = (Failure code message details, st)) /\
  (forall username password row hash,
     body = Ok (mkCredentials (Some username) (Some password)) ->
     username <> "" -> password <> "" ->
     selectOne (H := Sqlite predicate) st "admin_users" "username = ?"
               [VText username] = Ok (Some row) ->
     btoa password = Ok hash ->
     lookup "password_hash" row = Some (VText hash) ->
     In "last_login" (columns t) ->
     login (H := Sqlite predicate) btoa now_iso now create st body
     = (Failure 500 "Login failed" (Some "no such column: updated_at"), st)).
Proof.
  intros Htable Hnot.
  assert (Hupdate : forall row,
            exists c,
              update (H := Sqlite predicate) st "admin_users"
                     [("last_login", VText now_iso)] "id = ?"
                     [param (lookup "id" row)]
              = (Throw ("no such column: " ++ c), st) /\
              (In "last_login" (columns t) -> c = "updated_at")).
  { intros row.
    destruct (@update_throws_without_stamp_column predicate st "admin_users"
                [("last_login", VText now_iso)] "id = ?"
                [param (lookup "id" row)] t eq_refl)
      as (c & Hc & Hwhich); try assumption; [discriminate|repeat constructor|].
    exists c. split; [exact Hc|]. intros Hin. apply Hwhich.
    intros k [<-|[]]. exact Hin. }
  split.
  - unfold login. destruct body as [creds|e]; [|eauto].
    destruct (missing (body_username creds) || missing (body_password creds))%bool;
      [eauto|].
    destruct (selectOne _ _ _ _) as [[row|]|e]; [|eauto|eauto].
    destruct (btoa _) as [hash|e]; [|eauto].
    match goal with |- context [negb ?b] => destruct (negb b) end; [eauto|].
    destruct (Hupdate row) as (c & -> & _). eauto.
  - intros username password row hash -> Hu Hp Hrow Hbtoa Hhash Hlast.
    unfold login. cbn [body_username body_password missing].
    destruct username as [|cu u]; [congruence|].
    destruct password as [|cp pw]; [congruence|].
    cbn [missing orb].
    rewrite Hrow, Hbtoa, Hhash, String.eqb_refl. cbn [negb].
    destruct (Hupdate row) as (c & -> & Hc). rewrite (Hc Hlast). reflexivity.
Qed.

End Handler.

Lemma login_fails_without_updated_at_column_witness :
  login (H := Sqlite equality_predicate)
    (fun _ => Ok "YWRtaW4xMjM=") "2024-06-01T12:00:00.000Z" 1717243200
    (fun _ _ _ => Ok "header.claims.signature")
    admin_store (Ok (mkCredentials (Some "admin") (Some "admin123")))
  = (Failure 500 "Login failed" (Some "no such column: updated_at"), admin_store).
Proof.
  apply (proj2 (@login_fails_without_updated_at_column equality_predicate
                  (fun _ => Ok "YWRtaW4xMjM=") "2024-06-01T12:00:00.000Z"
                  1717243200%Z (fun _ _ _ => Ok "header.claims.signature")
                  admin_store (mkTable admin_users_columns [admin_row])
                  (Ok (mkCredentials (Some "admin") (Some "admin123")))
                  eq_refl
                  ltac:(cbn; intuition discriminate))
               "admin" "admin123" admin_row "YWRtaW4xMjM=");
    try reflexivity; try discriminate.
  cbn. tauto.
Defined.

End LoginProps.
